(** * OCT, the Open Clinical Terminology tool: a model of [tools/oct.py]

    The three commands of the tool ([new], [search], [similar]) are
    embedded as functions over an explicit [world]: the part of the file
    system the commands look at, and the tape of the secure random source.
    What a command prints is returned as a list of [echo] events, one per
    [click.echo] call, and how it ends as an [ending].

    Strings are ASCII strings; scores are real numbers (the rounding of
    the floating-point computation is not modelled). *)

From Stdlib Require Import List String Ascii Arith Bool Lia.
From Stdlib Require Import Permutation Sorted.
From Stdlib Require Import Reals Lra.
Import ListNotations.

Local Open Scope string_scope.
Local Open Scope list_scope.

(** ** Strings *)

(** [str.lower], on ASCII letters. *)
Definition lower_ascii (c : ascii) : ascii :=
  let n := nat_of_ascii c in
  if ((65 <=? n) && (n <=? 90))%nat then ascii_of_nat (n + 32) else c.

Fixpoint lower (s : string) : string :=
  match s with
  | EmptyString => EmptyString
  | String c r => String (lower_ascii c) (lower r)
  end.

(** [needle in hay], the substring test of Python. *)
Fixpoint contains (needle hay : string) : bool :=
  if prefix needle hay then true
  else match hay with
       | EmptyString => false
       | String _ r => contains needle r
       end.

(** The characters [str.strip] removes (ASCII white space). *)
Definition isspace (c : ascii) : bool :=
  let n := nat_of_ascii c in
  (((9 <=? n) && (n <=? 13)) || ((28 <=? n) && (n <=? 32)))%nat.

Fixpoint lstrip (s : string) : string :=
  match s with
  | EmptyString => EmptyString
  | String c r => if isspace c then lstrip r else s
  end.

Fixpoint rstrip (s : string) : string :=
  match s with
  | EmptyString => EmptyString
  | String c r =>
      match rstrip r with
      | EmptyString => if isspace c then EmptyString else String c EmptyString
      | r' => String c r'
      end
  end.

Definition strip (s : string) : string := rstrip (lstrip s).

(** ** Paths and the file system *)

(** A [pathlib.Path]: [Path(s)] or [parent / child]. *)
Inductive Path : Type :=
| PurePath (s : string)
| Join (parent : Path) (child : string).

Definition Path_eq_dec (p q : Path) : {p = q} + {p <> q}.
Proof. decide equality; apply string_dec. Defined.

(** What [read_text(encoding="utf-8")] gives on a regular file: its text,
    or an exception (undecodable bytes, no permission). *)
Inductive read_result : Type :=
| Text (content : string)
| Unreadable (e : string).

(** An entry of a directory: only regular files answer [is_file()]. *)
Inductive node : Type :=
| RegularFile (data : read_result)
| Subdirectory
| Special.

Definition dirent : Type := (string * node)%type.

(** What is found at a path.  The entries of a directory are kept in the
    order in which [glob("*")] yields them. *)
Inductive path_state : Type :=
| Missing
| Directory (entries : list dirent)
| NotADirectory.

(** The world a command runs in: the file system, the directory that
    holds [tools/] and [terms/], and the random source of [secrets] (a
    tape of draws with the number of draws consumed so far). *)
Record world : Type := mkWorld {
  fs : Path -> path_state;
  install_root : Path;
  entropy : nat -> nat;
  drawn : nat
}.

Definition set_fs (w : world) (p : Path) (s : path_state) : world :=
  mkWorld (fun q => if Path_eq_dec q p then s else fs w q)
          (install_root w) (entropy w) (drawn w).

Definition skip (n : nat) (w : world) : world :=
  mkWorld (fs w) (install_root w) (entropy w) (drawn w + n).

(** [p.exists()] for a directory path. *)
Definition path_exists (w : world) (p : Path) : bool :=
  match fs w p with
  | Missing => false
  | _ => true
  end.

(** The entries [p.glob("*")] yields: none unless [p] is a directory. *)
Definition glob (w : world) (p : Path) : list dirent :=
  match fs w p with
  | Directory entries => entries
  | _ => []
  end.

(** [(dir / name).exists()] *)
Definition file_exists (w : world) (dir : Path) (name : string) : bool :=
  existsb (String.eqb name) (map fst (glob w dir)).

(** [(dir / name).touch()] where no such entry exists: an empty regular
    file appears in [dir].  Where the file system enumerates it is its own
    choice; here it comes last. *)
Definition touch (w : world) (dir : Path) (name : string) : world :=
  set_fs w dir (Directory (glob w dir ++ [(name, RegularFile (Text ""))])).

(** ** Output and endings *)

Inductive exception : Type :=
| FileExistsError
| ValueError (msg : string).

(** How a command ends: it returns, it calls [exit(status)], or an
    exception leaves it. *)
Inductive ending : Type :=
| Returned
| Exited (status : nat)
| Raised (e : exception).

(** One constructor per [click.echo] call of the source. *)
Inductive echo : Type :=
| CreatedNewConceptFile (filepath : Path)
    (* "Created new concept file: {filepath}" *)
| ConceptID (identifier : string)
    (* "Concept ID: {identifier}" *)
| CouldNotGenerate (max_attempts : nat)
    (* "Error: Could not generate unique identifier after {max_attempts}
       attempts", on stderr *)
| DirectoryNotFound (search_dir : Path)
    (* "Directory not found: {search_dir}" *)
| FoundByFilename (filepath : Path)
    (* "Found by filename: {filepath}" *)
| FoundByContent (name content : string)
    (* "{filepath.name} # {content}" *)
| CouldNotRead (filepath : Path) (e : string)
    (* "Could not read {filepath}: {e}" *)
| NoMatchesFound
    (* "No matches found." *)
| NoReadableFilesFound
    (* "No readable files found." *)
| Scored (score : R) (name : string)
    (* "[{score:.3f}] {filepath.name}" *)
| NoSimilarConceptsFound.
    (* "No similar concepts found above the threshold." *)

Record result : Type := mkResult {
  echoed : list echo;
  ending_of : ending
}.

(** ** Identifier generation *)

Definition CROCKFORD_BASE32 : string := "0123456789ABCDEFGHJKMNPQRSTVWXYZ".

(** Its symbols, as a list. *)
Definition alphabet : list ascii := list_ascii_of_string CROCKFORD_BASE32.

(** [secrets.randbelow(n)]: the next draw of the tape, below [n]. *)
Definition randbelow (n : nat) (w : world) : nat * world :=
  (entropy w (drawn w) mod n, skip 1 w).

(** [secrets.choice(seq)] is [seq[randbelow(len(seq))]]. *)
Definition choice (seq : string) (w : world) : ascii * world :=
  let (i, w') := randbelow (String.length seq) w in
  (match String.get i seq with Some c => c | None => " "%char end, w').

Fixpoint generate_crockford_base32_id (length : nat) (w : world)
  : string * world :=
  match length with
  | O => (EmptyString, w)
  | S k =>
      let (c, w1) := choice CROCKFORD_BASE32 w in
      let (rest, w2) := generate_crockford_base32_id k w1 in
      (String c rest, w2)
  end.

(** ** Command [new] *)

Definition get_terms_directory (w : world) : Path :=
  Join (install_root w) "terms".

(** [Path(directory) if directory else get_terms_directory() / language]:
    an absent or empty [--directory] selects the default. *)
Definition resolve_directory (directory : option string) (language : string)
    (w : world) : Path :=
  match directory with
  | Some (String c r) => PurePath (String c r)
  | _ => Join (get_terms_directory w) language
  end.

(** [target_dir.mkdir(parents=True, exist_ok=True)] *)
Definition mkdir (w : world) (p : Path) : option world :=
  match fs w p with
  | Missing => Some (set_fs w p (Directory []))
  | Directory _ => Some w
  | NotADirectory => None
  end.

Definition max_attempts : nat := 1000.

(** The loop [for attempt in range(max_attempts)]: [Some identifier] when
    an attempt finds a free name (and the file is created), [None] when
    the loop runs out. *)
Fixpoint new_loop (attempts : nat) (target_dir : Path) (w : world)
  : option string * world :=
  match attempts with
  | O => (None, w)
  | S k =>
      let (identifier, w1) := generate_crockford_base32_id 6 w in
      if file_exists w1 target_dir identifier
      then new_loop k target_dir w1
      else (Some identifier, touch w1 target_dir identifier)
  end.

Definition new (directory : option string) (language : string) (w : world)
  : result * world :=
  let target_dir := resolve_directory directory language w in
  match mkdir w target_dir with
  | None => (mkResult [] (Raised FileExistsError), w)
  | Some w0 =>
      match new_loop max_attempts target_dir w0 with
      | (Some identifier, w1) =>
          (mkResult [CreatedNewConceptFile (Join target_dir identifier);
                     ConceptID identifier] Returned, w1)
      | (None, w1) =>
          (mkResult [CouldNotGenerate max_attempts] (Exited 1), w1)
      end
  end.

(** ** Command [search] *)

(** One turn of the loop over [search_dir.glob("*")]: what is printed for
    the entry, and whether [found] is set. *)
Definition search_entry (query : string) (search_dir : Path) (e : dirent)
  : list echo * bool :=
  let (name, n) := e in
  if contains (lower query) (lower name)
  then ([FoundByFilename (Join search_dir name)], true)
  else match n with
       | RegularFile (Text content) =>
           if contains (lower query) (lower content)
           then ([FoundByContent name content], true)
           else ([], false)
       | RegularFile (Unreadable err) =>
           ([CouldNotRead (Join search_dir name) err], false)
       | _ => ([], false)
       end.

Fixpoint search_loop (query : string) (search_dir : Path)
    (entries : list dirent) : list echo * bool :=
  match entries with
  | [] => ([], false)
  | e :: rest =>
      let (out, found) := search_entry query search_dir e in
      let (out', found') := search_loop query search_dir rest in
      (out ++ out', found || found')
  end.

Definition search (query : string) (directory : option string)
    (language : string) (w : world) : result :=
  let search_dir := resolve_directory directory language w in
  if negb (path_exists w search_dir)
  then mkResult [DirectoryNotFound search_dir] Returned
  else
    let (out, found) := search_loop query search_dir (glob w search_dir) in
    mkResult (out ++ if found then [] else [NoMatchesFound]) Returned.

(** ** The vector space of [similar]

    [TfidfVectorizer] and [cosine_similarity] are scikit-learn's; they are
    modelled with the default parameters the source leaves them at
    (lower-casing, the token pattern [\b\w\w+\b], smoothed IDF, L2 norm),
    over the real numbers. *)

Definition is_word_char (c : ascii) : bool :=
  let n := nat_of_ascii c in
  (((48 <=? n) && (n <=? 57)) || ((65 <=? n) && (n <=? 90)) ||
   (n =? 95) || ((97 <=? n) && (n <=? 122)))%nat.

(** A maximal run of word characters is a token when it has two
    characters or more. *)
Definition emit (run : string) : list string :=
  if (2 <=? String.length run)%nat then [run] else [].

Fixpoint findall (run : string) (doc : string) : list string :=
  match doc with
  | EmptyString => emit run
  | String c r =>
      if is_word_char c
      then findall (run ++ String c EmptyString) r
      else emit run ++ findall EmptyString r
  end.

(** [build_analyzer()]: lower-case, then tokenize. *)
Definition analyze (doc : string) : list string :=
  findall EmptyString (lower doc).

Definition Rsum (l : list R) : R := fold_right Rplus 0%R l.

Definition dot (u v : list R) : R :=
  Rsum (map (fun p => (fst p * snd p)%R) (combine u v)).

Definition norm_l2 (v : list R) : R := sqrt (dot v v).

(** The vectors all of whose components are zero. *)
Definition all_zero (v : list R) : Prop := Forall (fun x => x = 0%R) v.

(** [normalize(X, norm="l2")] on a row: a row of norm zero is left as it
    is, any other is divided by its norm. *)
Definition normalize (v : list R) : list R :=
  let n := norm_l2 v in
  if Req_dec_T n 0 then v else map (fun x => (x / n)%R) v.

(** The number of documents a term occurs in. *)
Definition document_frequency (term : string) (analyzed : list (list string))
  : nat :=
  List.length (filter (existsb (String.eqb term)) analyzed).

(** The smoothed inverse document frequency,
    [log((1 + n) / (1 + df)) + 1]. *)
Definition idf (n_samples df : nat) : R :=
  (ln (INR (n_samples + 1) / INR (df + 1)) + 1)%R.

(** A fitted vectorizer: the terms and their IDF weights. *)
Record TfidfVectorizer : Type := mkVectorizer {
  vocabulary_ : list string;
  idf_ : list R
}.

Definition vocabulary (raw_documents : list string) : list string :=
  nodup string_dec (List.concat (map analyze raw_documents)).

(** [TfidfVectorizer().fit(raw_documents)]: it raises [ValueError] when no
    document has a token. *)
Definition fit (raw_documents : list string) : exception + TfidfVectorizer :=
  let analyzed := map analyze raw_documents in
  match vocabulary raw_documents with
  | [] =>
      inl (ValueError
        "empty vocabulary; perhaps the documents only contain stop words")
  | terms =>
      inr (mkVectorizer terms
             (map (fun term =>
                     idf (List.length raw_documents)
                         (document_frequency term analyzed)) terms))
  end.

(** [vectorizer.transform(raw_documents)]: per document, the counts of the
    terms times their IDF weights, L2-normalized. *)
Definition transform_row (v : TfidfVectorizer) (doc : string) : list R :=
  normalize
    (map (fun tw => (INR (count_occ string_dec (analyze doc) (fst tw))
                     * snd tw)%R)
         (combine (vocabulary_ v) (idf_ v))).

Definition transform (v : TfidfVectorizer) (raw_documents : list string)
  : list (list R) :=
  map (transform_row v) raw_documents.

(** [cosine_similarity(X, Y)]: both arguments are normalized by row, then
    multiplied; one row of the result per row of [X]. *)
Definition cosine_similarity (X Y : list (list R)) : list (list R) :=
  map (fun x => map (fun y => dot (normalize x) (normalize y)) Y) X.

(** [ndarray.flatten()] *)
Definition flatten (K : list (list R)) : list R := List.concat K.

(** ** Ranking *)

Section Sorting.
Context {A K : Type}.
Variable key : A -> K.
Variable ltb : K -> K -> bool.

(** [sorted(l, key=key, reverse=True)]: descending by key, elements of
    equal key in their original order.  [insert_desc x l] puts [x], which
    came before the elements of [l], in front of the first element whose
    key is not greater. *)
Fixpoint insert_desc (x : A) (l : list A) : list A :=
  match l with
  | [] => [x]
  | y :: r => if ltb (key x) (key y) then y :: insert_desc x r else x :: l
  end.

Fixpoint sorted_reverse (l : list A) : list A :=
  match l with
  | [] => []
  | x :: r => insert_desc x (sorted_reverse r)
  end.

(** The order of a list sorted this way: no element is below a later
    one. *)
Definition not_below (x y : A) : Prop := ltb (key x) (key y) = false.
End Sorting.

Definition Rltb (a b : R) : bool := if Rlt_dec a b then true else false.
Definition Rleb (a b : R) : bool := if Rle_dec a b then true else false.

(** [filepath.name]: the last component. *)
Definition name (p : Path) : string :=
  match p with
  | PurePath s => s
  | Join _ child => child
  end.

(** ** Command [similar] *)

(** The loop that reads the concept files: the paths and stripped texts
    of the regular files that could be read, and a line for each that
    could not. *)
Fixpoint read_concept_files (search_dir : Path) (entries : list dirent)
  : list Path * list string * list echo :=
  match entries with
  | [] => ([], [], [])
  | (nm, n) :: rest =>
      let '(filepaths, texts, out) := read_concept_files search_dir rest in
      match n with
      | RegularFile (Text content) =>
          (Join search_dir nm :: filepaths, strip content :: texts, out)
      | RegularFile (Unreadable e) =>
          (filepaths, texts, CouldNotRead (Join search_dir nm) e :: out)
      | _ => (filepaths, texts, out)
      end
  end.

(** The loop over the sorted pairs: a line per pair whose score reaches
    the threshold, and whether [found] is set. *)
Fixpoint display_loop (threshold : R) (ranked : list (Path * R))
  : list echo * bool :=
  match ranked with
  | [] => ([], false)
  | (filepath, score) :: rest =>
      let (out, found) := display_loop threshold rest in
      if Rleb threshold score
      then (Scored score (name filepath) :: out, true)
      else (out, found)
  end.

(** Lines 189 to 199: sort, display, and the message when nothing was
    displayed. *)
Definition display (threshold : R) (pairs : list (Path * R)) : list echo :=
  let (out, found) :=
    display_loop threshold (sorted_reverse snd Rltb pairs) in
  out ++ if found then [] else [NoSimilarConceptsFound].

Definition similar (query : string) (directory : option string)
    (language : string) (threshold : R) (w : world) : result :=
  let search_dir := resolve_directory directory language w in
  if negb (path_exists w search_dir)
  then mkResult [DirectoryNotFound search_dir] Returned
  else
    let '(filepaths, texts, out) :=
      read_concept_files search_dir (glob w search_dir) in
    match texts with
    | [] => mkResult (out ++ [NoReadableFilesFound]) Returned
    | _ =>
        match fit (query :: texts) with
        | inl e => mkResult out (Raised e)
        | inr vectorizer =>
            let vectors := transform vectorizer (query :: texts) in
            let similarities :=
              flatten (cosine_similarity (firstn 1 vectors)
                                         (skipn 1 vectors)) in
            mkResult (out ++ display threshold (combine filepaths similarities))
                     Returned
        end
    end.

(** The scores [similar] computes once the vectorizer is fitted (lines
    184 to 187). *)
Definition similarity_scores (vectorizer : TfidfVectorizer) (query : string)
    (texts : list string) : list R :=
  let vectors := transform vectorizer (query :: texts) in
  flatten (cosine_similarity (firstn 1 vectors) (skipn 1 vectors)).

(** The files [similar] reads in a world, with their texts. *)
Definition corpus (directory : option string) (language : string) (w : world)
  : list Path * list string :=
  let search_dir := resolve_directory directory language w in
  fst (read_concept_files search_dir (glob w search_dir)).

(** The pairs [zip(filepaths, similarities)] that [similar] ranks; there
    are none when it does not get as far as scoring. *)
Definition candidates (query : string) (directory : option string)
    (language : string) (w : world) : list (Path * R) :=
  let (filepaths, texts) := corpus directory language w in
  match texts with
  | [] => []
  | _ =>
      match fit (query :: texts) with
      | inl _ => []
      | inr vectorizer =>
          combine filepaths (similarity_scores vectorizer query texts)
      end
  end.

(** The score lines of an output, in order. *)
Definition scored_lines (out : list echo) : list (R * string) :=
  flat_map (fun e => match e with
                     | Scored score nm => [(score, nm)]
                     | _ => []
                     end) out.

Definition has_score (s : R) (x : Path * R) : bool :=
  if Req_dec_T (snd x) s then true else false.

(** [score >= threshold], on a pair. *)
Definition reaches (threshold : R) (x : Path * R) : bool :=
  Rleb threshold (snd x).

(** What the score line of a pair shows. *)
Definition shown_as (x : Path * R) : R * string := (snd x, name (fst x)).

(** ** The scoring rule in the words of the specification *)

(** The term frequency of a term in a document. *)
Definition term_frequency (term doc : string) : nat :=
  count_occ string_dec (analyze doc) term.

(** The number of documents of the set in which the term occurs. *)
Definition document_frequency_spec (term : string) (docs : list string)
  : nat :=
  List.length
    (filter (fun d => if in_dec string_dec term (analyze d)
                      then true else false) docs).

(** [log((1 + N) / (1 + document_frequency(term))) + 1], with N the
    number of documents of the set. *)
Definition idf_spec (docs : list string) (term : string) : R :=
  (ln ((1 + INR (List.length docs)) /
       (1 + INR (document_frequency_spec term docs))) + 1)%R.

(** The vector of a document over the vocabulary of the set. *)
Definition tfidf_spec (docs : list string) (doc : string) : list R :=
  map (fun term => (INR (term_frequency term doc) * idf_spec docs term)%R)
      (vocabulary docs).

(** L2 normalization: every component divided by the norm. *)
Definition l2_normalize_spec (v : list R) : list R :=
  map (fun x => (x / norm_l2 v)%R) v.

(** Cosine similarity: the dot product over the product of the norms,
    and 0 when one of the vectors is zero. *)
Definition cosine_spec (u v : list R) : R :=
  if Req_dec_T (norm_l2 u * norm_l2 v) 0 then 0%R
  else (dot u v / (norm_l2 u * norm_l2 v))%R.

(** The score of a corpus document: the document set is the query
    followed by the texts, and the query's vector is that of document 0. *)
Definition score_spec (query : string) (texts : list string) (doc : string)
  : R :=
  let docs := query :: texts in
  cosine_spec (l2_normalize_spec (tfidf_spec docs (hd EmptyString docs)))
              (l2_normalize_spec (tfidf_spec docs doc)).

(** ** Example worlds *)

(** One directory, ["terms"], with the given entries; the tape always
    draws 0. *)
Definition example_world (entries : list dirent) : world :=
  mkWorld (fun p => if Path_eq_dec p (PurePath "terms")
                    then Directory entries else Missing)
          (PurePath "/opt/oct") (fun _ => 0) 0.

(** The corpus of the example scenario, with an unreadable file and a
    subdirectory added. *)
Definition kidney_corpus : list dirent :=
  [("A", RegularFile (Text "chronic kidney disease stage 3"));
   ("B", RegularFile (Text "acute kidney injury"));
   ("X", RegularFile (Unreadable "'utf-8' codec can't decode byte 0xff"));
   ("archive", Subdirectory);
   ("C", RegularFile (Text "type 2 diabetes mellitus"))].

(** The same file system with another tape, some draws already made, and
    a further directory. *)
Definition other_world (w : world) : world :=
  set_fs (mkWorld (fs w) (install_root w) (fun n => 7 * n + 3) 42)
         (PurePath "elsewhere") (Directory [("ZZZZZZ", RegularFile (Text ""))]).

(** The exception of a fit that finds no token. *)
Definition empty_vocabulary_error : exception :=
  ValueError "empty vocabulary; perhaps the documents only contain stop words".

(** The vectorizer a fit returns, when it returns one. *)
Definition fitted (docs : list string) : TfidfVectorizer :=
  mkVectorizer (vocabulary docs)
    (map (fun term => idf (List.length docs)
                          (document_frequency term (map analyze docs)))
         (vocabulary docs)).

(** Two entries that [similar] cannot tell apart: the same name, and
    either the same node or two readable regular files whose contents
    have the same tokens. *)
Definition same_tokens (e1 e2 : dirent) : Prop :=
  fst e1 = fst e2 /\
  match snd e1, snd e2 with
  | RegularFile (Text c1), RegularFile (Text c2) => analyze c1 = analyze c2
  | n1, n2 => n1 = n2
  end.

(** ** Reading the tape *)

(** The symbol a draw selects: [CROCKFORD_BASE32[draw mod 32]]. *)
Definition symbol_at (draw : nat) : ascii :=
  match String.get (draw mod String.length CROCKFORD_BASE32)
                   CROCKFORD_BASE32 with
  | Some c => c
  | None => " "%char
  end.

(** The position of a symbol in a list of symbols. *)
Fixpoint index_of (c : ascii) (l : list ascii) : nat :=
  match l with
  | [] => 0
  | a :: r => if Ascii.eqb c a then 0 else S (index_of c r)
  end.

(** A tape whose draws from position [start] on select the characters
    [chars], one after the other. *)
Definition tape_for (start : nat) (chars : list ascii) : nat -> nat :=
  fun k => index_of (nth (k - start) chars " "%char) alphabet.

Definition with_tape (w : world) (tape : nat -> nat) : world :=
  mkWorld (fs w) (install_root w) tape (drawn w).

(** The world of the examples with a tape that counts: its [k]-th group
    of six draws is six times [k]. *)
Definition counting_world (entries : list dirent) : world :=
  with_tape (example_world entries) (fun n => n / 6).

(** The [k]-th identifier the loop of [new] generates in a world. *)
Definition candidate (k : nat) (w : world) : string :=
  fst (generate_crockford_base32_id 6 (skip (6 * k) w)).

(** * Properties *)

(** ** The random tape and the file system *)

Lemma skip_0 (w : world) : skip 0 w = w.
Proof. destruct w; unfold skip; simpl; f_equal; lia. Qed.

Lemma skip_skip (a b : nat) (w : world) : skip a (skip b w) = skip (b + a) w.
Proof. unfold skip; simpl; f_equal; lia. Qed.

Lemma glob_skip (n : nat) (w : world) (p : Path) : glob (skip n w) p = glob w p.
Proof. reflexivity. Qed.

Lemma file_exists_skip (n : nat) (w : world) (p : Path) (nm : string) :
  file_exists (skip n w) p nm = file_exists w p nm.
Proof. reflexivity. Qed.

Lemma file_exists_In (w : world) (p : Path) (nm : string) :
  file_exists w p nm = true <-> In nm (map fst (glob w p)).
Proof.
  unfold file_exists. rewrite existsb_exists. split.
  - intros [x [Hin Heq]]. apply String.eqb_eq in Heq. now subst.
  - intros Hin. exists nm. split; [assumption | apply String.eqb_refl].
Qed.

Lemma file_exists_false (w : world) (p : Path) (nm : string) :
  file_exists w p nm = false <-> ~ In nm (map fst (glob w p)).
Proof.
  rewrite <- file_exists_In.
  destruct (file_exists w p nm); split; intros; congruence.
Qed.

Lemma fs_set_fs_same (w : world) (p : Path) (s : path_state) :
  fs (set_fs w p s) p = s.
Proof. simpl. destruct (Path_eq_dec p p); congruence. Qed.

Lemma fs_set_fs_other (w : world) (p q : Path) (s : path_state) :
  q <> p -> fs (set_fs w p s) q = fs w q.
Proof. intros H. simpl. destruct (Path_eq_dec q p); congruence. Qed.

(** ** The identifier generator *)

Lemma get_In (s : string) (i : nat) :
  i < String.length s ->
  exists c, String.get i s = Some c /\ In c (list_ascii_of_string s).
Proof.
  revert i. induction s as [|a s IH]; intros i Hi; simpl in *; [lia|].
  destruct i as [|i].
  - exists a. auto.
  - destruct (IH i) as [c [Hg Hc]]; [lia|]. exists c. auto.
Qed.

Lemma choice_alphabet (w : world) : In (fst (choice CROCKFORD_BASE32 w)) alphabet.
Proof.
  unfold choice, randbelow. cbn [fst].
  destruct (get_In CROCKFORD_BASE32
              (entropy w (drawn w) mod String.length CROCKFORD_BASE32))
    as [c [Hg Hc]].
  - apply Nat.mod_upper_bound. discriminate.
  - rewrite Hg. exact Hc.
Qed.

Lemma choice_world (seq : string) (w : world) : snd (choice seq w) = skip 1 w.
Proof. reflexivity. Qed.

Lemma generate_S (n : nat) (w : world) :
  generate_crockford_base32_id (S n) w =
  let (c, w1) := choice CROCKFORD_BASE32 w in
  let (rest, w2) := generate_crockford_base32_id n w1 in
  (String c rest, w2).
Proof. reflexivity. Qed.

#[local] Opaque choice.

Lemma generate_world (n : nat) (w : world) :
  snd (generate_crockford_base32_id n w) = skip n w.
Proof.
  revert w. induction n as [|n IH]; intros w.
  - simpl. now rewrite skip_0.
  - rewrite generate_S.
    pose proof (choice_world CROCKFORD_BASE32 w) as Hc.
    destruct (choice CROCKFORD_BASE32 w) as [c w1]. simpl in Hc. subst w1.
    specialize (IH (skip 1 w)).
    destruct (generate_crockford_base32_id n (skip 1 w)) as [rest w2].
    simpl in *. subst w2. apply skip_skip.
Qed.

Lemma generate_length (n : nat) (w : world) :
  String.length (fst (generate_crockford_base32_id n w)) = n.
Proof.
  revert w. induction n as [|n IH]; intros w; [reflexivity|].
  rewrite generate_S.
  destruct (choice CROCKFORD_BASE32 w) as [c w1].
  specialize (IH w1).
  destruct (generate_crockford_base32_id n w1) as [rest w2].
  simpl in *. now f_equal.
Qed.

Lemma generate_alphabet (n : nat) (w : world) :
  Forall (fun c => In c alphabet)
         (list_ascii_of_string (fst (generate_crockford_base32_id n w))).
Proof.
  revert w. induction n as [|n IH]; intros w; [constructor|].
  rewrite generate_S.
  pose proof (choice_alphabet w) as Hc.
  destruct (choice CROCKFORD_BASE32 w) as [c w1].
  specialize (IH w1).
  destruct (generate_crockford_base32_id n w1) as [rest w2].
  simpl in *. constructor; assumption.
Qed.

(** ** The allocation loop *)

Lemma new_loop_S (k : nat) (target_dir : Path) (w : world) :
  new_loop (S k) target_dir w =
  let (identifier, w1) := generate_crockford_base32_id 6 w in
  if file_exists w1 target_dir identifier
  then new_loop k target_dir w1
  else (Some identifier, touch w1 target_dir identifier).
Proof. reflexivity. Qed.

Lemma new_loop_found (attempts : nat) (target_dir : Path) (w : world)
    (identifier : string) (w' : world) :
  new_loop attempts target_dir w = (Some identifier, w') ->
  exists j, file_exists w target_dir identifier = false /\
            w' = touch (skip j w) target_dir identifier.
Proof.
  revert w. induction attempts as [|k IH]; intros w H.
  - discriminate.
  - rewrite new_loop_S in H.
    pose proof (generate_world 6 w) as Hw.
    destruct (generate_crockford_base32_id 6 w) as [cand w1].
    simpl in Hw. subst w1.
    destruct (file_exists (skip 6 w) target_dir cand) eqn:E.
    + destruct (IH _ H) as [j [Hf Hw']].
      exists (6 + j). split; [exact Hf|]. now rewrite <- skip_skip.
    + inversion H; subst. exists 6. split; [exact E | reflexivity].
Qed.

Lemma new_loop_exhausted (attempts : nat) (target_dir : Path) (w : world) :
  (forall k, k < attempts ->
     file_exists w target_dir
       (fst (generate_crockford_base32_id 6 (skip (6 * k) w))) = true) ->
  new_loop attempts target_dir w = (None, skip (6 * attempts) w).
Proof.
  revert w. induction attempts as [|n IH]; intros w H.
  - simpl. now rewrite skip_0.
  - rewrite new_loop_S.
    pose proof (generate_world 6 w) as Hw.
    pose proof (H 0 ltac:(lia)) as H0. rewrite skip_0 in H0.
    destruct (generate_crockford_base32_id 6 w) as [cand w1].
    simpl in Hw, H0. subst w1.
    rewrite file_exists_skip, H0.
    rewrite IH.
    + rewrite skip_skip. f_equal. f_equal. lia.
    + intros k Hk. rewrite skip_skip, file_exists_skip.
      replace (6 + 6 * k) with (6 * S k) by lia. apply H. lia.
Qed.

(** ** Command [new] *)

(** The generator returns six characters of the alphabet; the alphabet
    has 32 distinct symbols, none of them one of the letters I, L, O, U. *)
Lemma generate_crockford_base32_id_spec (w : world) :
  let identifier := fst (generate_crockford_base32_id 6 w) in
  String.length identifier = 6 /\
  Forall (fun c => In c alphabet) (list_ascii_of_string identifier) /\
  List.length alphabet = 32 /\ NoDup alphabet /\
  ~ In "I"%char alphabet /\ ~ In "L"%char alphabet /\
  ~ In "O"%char alphabet /\ ~ In "U"%char alphabet.
Proof.
  cbv zeta. split; [apply generate_length|].
  split; [apply generate_alphabet|].
  split; [reflexivity|].
  split.
  - unfold alphabet. simpl.
    repeat (constructor; [simpl; intuition discriminate|]). constructor.
  - unfold alphabet; simpl; repeat split; intuition discriminate.
Qed.

(** C2, at a tape that always draws 0: the identifier is ["000000"], and
    the digits 0 and 1 are symbols of the alphabet. *)
Lemma generate_crockford_base32_id_zero_tape :
  fst (generate_crockford_base32_id 6 (example_world [])) = "000000" /\
  In "0"%char alphabet /\ In "1"%char alphabet.
Proof.
  split; [vm_compute; reflexivity|].
  unfold alphabet; simpl; auto.
Qed.

(** C6: when [new] returns, the identifier it prints is the name of no
    entry the target directory had, and the target directory has gained
    an empty regular file of that name; nothing else changed. *)
Theorem new_creates_fresh_file (directory : option string) (language : string)
    (w : world) (r : result) (w' : world) :
  new directory language w = (r, w') ->
  ending_of r = Returned ->
  let target_dir := resolve_directory directory language w in
  exists identifier,
    echoed r = [CreatedNewConceptFile (Join target_dir identifier);
                ConceptID identifier] /\
    ~ In identifier (map fst (glob w target_dir)) /\
    fs w' target_dir =
      Directory (glob w target_dir ++ [(identifier, RegularFile (Text ""))]) /\
    (forall p, p <> target_dir -> fs w' p = fs w p).
Proof.
  intros Hnew Hend target_dir. unfold new in Hnew.
  fold target_dir in Hnew.
  assert (Hloop : forall w0,
    glob w0 target_dir = glob w target_dir ->
    (forall p, p <> target_dir -> fs w0 p = fs w p) ->
    match new_loop max_attempts target_dir w0 with
    | (Some identifier, w1) =>
        (mkResult [CreatedNewConceptFile (Join target_dir identifier);
                   ConceptID identifier] Returned, w1)
    | (None, w1) => (mkResult [CouldNotGenerate max_attempts] (Exited 1), w1)
    end = (r, w') ->
    exists identifier,
      echoed r = [CreatedNewConceptFile (Join target_dir identifier);
                  ConceptID identifier] /\
      ~ In identifier (map fst (glob w target_dir)) /\
      fs w' target_dir =
        Directory (glob w target_dir ++ [(identifier, RegularFile (Text ""))]) /\
      (forall p, p <> target_dir -> fs w' p = fs w p)).
  { intros w0 Hglob Hother H.
    destruct (new_loop max_attempts target_dir w0) as [[identifier|] w1] eqn:E;
      inversion H; subst; clear H; [|discriminate Hend].
    apply new_loop_found in E. destruct E as [j [Hfree Hw']]. subst w'.
    exists identifier. split; [reflexivity|].
    split; [rewrite <- Hglob; now apply file_exists_false|].
    split.
    - unfold touch. rewrite fs_set_fs_same, glob_skip, Hglob. reflexivity.
    - intros p Hp. unfold touch. rewrite fs_set_fs_other by exact Hp.
      now apply Hother. }
  unfold mkdir in Hnew. destruct (fs w target_dir) as [|entries|] eqn:Efs.
  - apply (Hloop (set_fs w target_dir (Directory []))); [| |exact Hnew].
    + unfold glob. now rewrite fs_set_fs_same, Efs.
    + intros p Hp. now apply fs_set_fs_other.
  - apply (Hloop w); auto.
  - inversion Hnew; subst. discriminate Hend.
Qed.

Lemma new_creates_fresh_file_witness :
  let w := example_world [("000000", RegularFile (Text "asthma"))] in
  let w_tape := mkWorld (fs w) (install_root w) (fun n => n / 6) 0 in
  exists identifier,
    echoed (fst (new (Some "terms") "en-GB" w_tape)) =
      [CreatedNewConceptFile (Join (PurePath "terms") identifier);
       ConceptID identifier] /\
    ~ In identifier (map fst (glob w_tape (PurePath "terms"))) /\
    fs (snd (new (Some "terms") "en-GB" w_tape)) (PurePath "terms") =
      Directory (glob w_tape (PurePath "terms") ++
                 [(identifier, RegularFile (Text ""))]) /\
    (forall p, p <> PurePath "terms" ->
       fs (snd (new (Some "terms") "en-GB" w_tape)) p = fs w_tape p).
Proof.
  intros w w_tape.
  apply (new_creates_fresh_file (Some "terms") "en-GB" w_tape
           (fst (new (Some "terms") "en-GB" w_tape))
           (snd (new (Some "terms") "en-GB" w_tape))).
  - apply surjective_pairing.
  - vm_compute. reflexivity.
Defined.

(** C7: when the target directory exists and each of the 1000 candidates
    is the name of one of its entries, [new] prints the error, ends with
    [exit(1)], has drawn 1000 identifiers of 6 characters from the tape,
    and leaves the file system as it was. *)
Theorem new_exhausted (directory : option string) (language : string)
    (w : world) (entries : list dirent) :
  let target_dir := resolve_directory directory language w in
  fs w target_dir = Directory entries ->
  (forall k, k < max_attempts ->
     In (fst (generate_crockford_base32_id 6 (skip (6 * k) w)))
        (map fst entries)) ->
  new directory language w =
    (mkResult [CouldNotGenerate 1000] (Exited 1), skip (6 * 1000) w) /\
  fs (snd (new directory language w)) = fs w.
Proof.
  intros target_dir Hdir Hall.
  assert (Hnew : new directory language w =
    (mkResult [CouldNotGenerate 1000] (Exited 1), skip (6 * 1000) w)).
  { unfold new. fold target_dir. unfold mkdir. rewrite Hdir.
    rewrite new_loop_exhausted; [reflexivity|].
    intros k Hk. apply file_exists_In. unfold glob. rewrite Hdir.
    now apply Hall. }
  split; [exact Hnew|]. rewrite Hnew. reflexivity.
Qed.

Lemma generate_zero_tape (n : nat) (w : world) :
  entropy w = (fun _ => 0) ->
  fst (generate_crockford_base32_id 6 (skip n w)) = "000000".
Proof.
  intros H. destruct w as [f root e d]. simpl in H. subst e.
  vm_compute. reflexivity.
Qed.

Lemma new_exhausted_witness :
  let w := example_world [("000000", RegularFile (Text ""))] in
  new (Some "terms") "en-GB" w =
    (mkResult [CouldNotGenerate 1000] (Exited 1), skip (6 * 1000) w) /\
  fs (snd (new (Some "terms") "en-GB" w)) = fs w.
Proof.
  intros w.
  apply (new_exhausted (Some "terms") "en-GB" w
           [("000000", RegularFile (Text ""))]).
  - reflexivity.
  - intros k Hk. rewrite generate_zero_tape by reflexivity.
    simpl. left. reflexivity.
Defined.

(** ** Strings: what [contains] decides *)

Lemma prefix_app (a b : string) :
  prefix a b = true <-> exists post, b = (a ++ post)%string.
Proof.
  revert b. induction a as [|c a IH]; intros b.
  - split; [intros _; now exists b | intros _; now destruct b].
  - destruct b as [|d b]; simpl.
    + split; [discriminate | intros [post H]; discriminate].
    + destruct (ascii_dec c d) as [->|Hne].
      * rewrite IH. split; intros [post H]; exists post.
        -- now rewrite H.
        -- now inversion H.
      * split; [discriminate|]. intros [post H]. inversion H. congruence.
Qed.

Lemma contains_substring (needle hay : string) :
  contains needle hay = true <->
  exists pre post, hay = (pre ++ needle ++ post)%string.
Proof.
  induction hay as [|c hay IH].
  - cbn [contains]. destruct (prefix needle "") eqn:E.
    + split; [intros _|reflexivity].
      apply prefix_app in E. destruct E as [post H]. now exists "", post.
    + split; [discriminate|]. intros [pre [post H]].
      destruct pre; [|discriminate].
      assert (prefix needle "" = true) by (apply prefix_app; now exists post).
      congruence.
  - cbn [contains]. destruct (prefix needle (String c hay)) eqn:E.
    + split; [intros _|reflexivity].
      apply prefix_app in E. destruct E as [post H]. now exists "", post.
    + rewrite IH. split.
      * intros [pre [post H]]. exists (String c pre), post. simpl. now rewrite H.
      * intros [pre [post H]]. destruct pre as [|d pre].
        -- assert (prefix needle (String c hay) = true)
             by (apply prefix_app; now exists post).
           congruence.
        -- inversion H. now exists pre, post.
Qed.

(** ** Command [search] *)

Lemma search_loop_out (query : string) (search_dir : Path)
    (entries : list dirent) :
  fst (search_loop query search_dir entries) =
  flat_map (fun e => fst (search_entry query search_dir e)) entries.
Proof.
  induction entries as [|e rest IH]; [reflexivity|].
  cbn [search_loop flat_map].
  destruct (search_entry query search_dir e) as [out found].
  destruct (search_loop query search_dir rest) as [out' found'].
  simpl in *. now rewrite IH.
Qed.

Lemma search_echoed (query : string) (directory : option string)
    (language : string) (w : world) (x : echo) :
  let search_dir := resolve_directory directory language w in
  x <> NoMatchesFound -> x <> DirectoryNotFound search_dir ->
  (In x (echoed (search query directory language w)) <->
   exists e, In e (glob w search_dir) /\
             In x (fst (search_entry query search_dir e))).
Proof.
  intros search_dir Hx1 Hx2. unfold search. fold search_dir.
  destruct (path_exists w search_dir) eqn:Ex; cbn [negb].
  - pose proof (search_loop_out query search_dir (glob w search_dir)) as Hout.
    destruct (search_loop query search_dir (glob w search_dir)) as [out found].
    cbn [fst] in Hout. cbn [echoed]. rewrite in_app_iff, Hout, in_flat_map.
    split; [intros [H|H]; [exact H|] | auto].
    destruct found; simpl in H; intuition congruence.
  - assert (Hg : glob w search_dir = []).
    { unfold glob. unfold path_exists in Ex.
      destruct (fs w search_dir); congruence. }
    rewrite Hg. simpl. split.
    + intros [H|[]]. congruence.
    + intros [e [[] _]].
Qed.

(** C10: the filename test applies to every entry, whatever its kind;
    when the name contains the query the entry is reported by filename,
    whatever it holds, and no content line is printed for that name; an
    entry whose name does not contain the query and that is not a regular
    file prints nothing. *)
Theorem search_filename_first (query : string) (directory : option string)
    (language : string) (w : world) (nm : string) (n : node) :
  let search_dir := resolve_directory directory language w in
  In (nm, n) (glob w search_dir) ->
  (contains (lower query) (lower nm) = true ->
     search_entry query search_dir (nm, n) =
       ([FoundByFilename (Join search_dir nm)], true) /\
     In (FoundByFilename (Join search_dir nm))
        (echoed (search query directory language w)) /\
     forall content,
       ~ In (FoundByContent nm content)
            (echoed (search query directory language w))) /\
  (contains (lower query) (lower nm) = false ->
     (forall data, n <> RegularFile data) ->
     search_entry query search_dir (nm, n) = ([], false)).
Proof.
  intros search_dir Hin. split.
  - intros Hname.
    pose proof (search_echoed query directory language w) as Hechoed.
    cbv zeta in Hechoed. fold search_dir in Hechoed.
    assert (He : search_entry query search_dir (nm, n) =
                 ([FoundByFilename (Join search_dir nm)], true)).
    { unfold search_entry. now rewrite Hname. }
    split; [exact He|]. split.
    + apply Hechoed; try discriminate.
      exists (nm, n). split; [exact Hin|]. rewrite He. now left.
    + intros content Hc. apply Hechoed in Hc; try discriminate.
      destruct Hc as [[nm' n'] [_ Hc]]. unfold search_entry in Hc.
      destruct (contains (lower query) (lower nm')) eqn:E.
      * destruct Hc as [Hc|[]]. discriminate.
      * destruct n' as [[c|err]| |]; simpl in Hc; try contradiction.
        -- destruct (contains (lower query) (lower c)); simpl in Hc;
             [destruct Hc as [Hc|[]]; inversion Hc; congruence | contradiction].
        -- destruct Hc as [Hc|[]]. discriminate.
  - intros Hname Hkind. unfold search_entry. rewrite Hname.
    destruct n as [data| |]; try reflexivity.
    exfalso. now apply (Hkind data).
Qed.

Lemma search_filename_first_witness :
  let w := example_world [("kidney", Subdirectory);
                          ("AB12CD", RegularFile (Text "kidney"))] in
  search_entry "KID" (PurePath "terms") ("kidney", Subdirectory) =
    ([FoundByFilename (Join (PurePath "terms") "kidney")], true) /\
  In (FoundByFilename (Join (PurePath "terms") "kidney"))
     (echoed (search "KID" (Some "terms") "en-GB" w)) /\
  forall content,
    ~ In (FoundByContent "kidney" content)
         (echoed (search "KID" (Some "terms") "en-GB" w)).
Proof.
  intros w.
  apply (search_filename_first "KID" (Some "terms") "en-GB" w
           "kidney" Subdirectory).
  - simpl. left. reflexivity.
  - reflexivity.
Defined.

(** C3 as stated fails: here the name and the content of the one file
    both contain the query, and only the filename line is printed. *)
Lemma search_both_reports_filename_only :
  ~ (forall (query : string) (directory : option string) (language : string)
            (w : world) (nm content : string),
       In (nm, RegularFile (Text content))
          (glob w (resolve_directory directory language w)) ->
       contains (lower query) (lower content) = true ->
       In (FoundByContent nm content)
          (echoed (search query directory language w))).
Proof.
  intros H.
  specialize (H "DIABETES" (Some "terms") "en-GB"
                (example_world [("diabetes",
                                 RegularFile (Text "Type 2 diabetes mellitus"))])
                "diabetes" "Type 2 diabetes mellitus").
  assert (Hout : echoed (search "DIABETES" (Some "terms") "en-GB"
                   (example_world [("diabetes",
                      RegularFile (Text "Type 2 diabetes mellitus"))])) =
                 [FoundByFilename (Join (PurePath "terms") "diabetes")])
    by reflexivity.
  rewrite Hout in H.
  destruct H as [H|[]]; [now left | reflexivity | discriminate H].
Qed.

(** C3, amended: a filename line is printed for an entry exactly when its
    name contains the query, and a content line exactly when the entry is
    a readable regular file whose name does not contain the query and
    whose content does (both tests ignore case). *)
Theorem search_reports (query : string) (directory : option string)
    (language : string) (w : world) :
  let search_dir := resolve_directory directory language w in
  let out := echoed (search query directory language w) in
  (forall filepath,
     In (FoundByFilename filepath) out <->
     exists nm n, In (nm, n) (glob w search_dir) /\
                  filepath = Join search_dir nm /\
                  contains (lower query) (lower nm) = true) /\
  (forall nm content,
     In (FoundByContent nm content) out <->
     In (nm, RegularFile (Text content)) (glob w search_dir) /\
     contains (lower query) (lower nm) = false /\
     contains (lower query) (lower content) = true).
Proof.
  intros search_dir out.
  pose proof (search_echoed query directory language w) as Hechoed.
  cbv zeta in Hechoed. fold search_dir in Hechoed. subst out.
  split.
  - intros filepath. rewrite Hechoed by discriminate. split.
    + intros [[nm n] [Hin Hx]]. exists nm, n. split; [exact Hin|].
      unfold search_entry in Hx.
      destruct (contains (lower query) (lower nm)) eqn:E.
      * destruct Hx as [Hx|[]]. inversion Hx. auto.
      * destruct n as [[c|err]| |]; simpl in Hx; try contradiction.
        -- destruct (contains (lower query) (lower c)); simpl in Hx;
             [destruct Hx as [Hx|[]]; discriminate | contradiction].
        -- destruct Hx as [Hx|[]]. discriminate.
    + intros [nm [n [Hin [-> Hname]]]]. exists (nm, n).
      split; [exact Hin|]. unfold search_entry. rewrite Hname. now left.
  - intros nm content. rewrite Hechoed by discriminate. split.
    + intros [[nm' n] [Hin Hx]]. unfold search_entry in Hx.
      destruct (contains (lower query) (lower nm')) eqn:E.
      * destruct Hx as [Hx|[]]. discriminate.
      * destruct n as [[c|err]| |]; simpl in Hx; try contradiction.
        -- destruct (contains (lower query) (lower c)) eqn:Ec; simpl in Hx;
             [|contradiction].
           destruct Hx as [Hx|[]]. inversion Hx; subst. auto.
        -- destruct Hx as [Hx|[]]. discriminate.
    + intros [Hin [Hname Hcontent]]. exists (nm, RegularFile (Text content)).
      split; [exact Hin|]. unfold search_entry. rewrite Hname, Hcontent.
      now left.
Qed.

(** ** A missing directory *)

(** C8: when nothing exists at the directory's path, [search] and
    [similar] both print the "Directory not found" line, and nothing
    else, and return. *)
Theorem directory_not_found (query : string) (directory : option string)
    (language : string) (threshold : R) (w : world) :
  let search_dir := resolve_directory directory language w in
  fs w search_dir = Missing ->
  search query directory language w =
    mkResult [DirectoryNotFound search_dir] Returned /\
  similar query directory language threshold w =
    mkResult [DirectoryNotFound search_dir] Returned.
Proof.
  intros search_dir H. unfold search, similar, path_exists.
  fold search_dir. rewrite H. split; reflexivity.
Qed.

Lemma directory_not_found_witness :
  search "asthma" None "en-GB" (example_world []) =
    mkResult [DirectoryNotFound
                (Join (Join (PurePath "/opt/oct") "terms") "en-GB")]
             Returned /\
  similar "asthma" None "en-GB" 0.2%R (example_world []) =
    mkResult [DirectoryNotFound
                (Join (Join (PurePath "/opt/oct") "terms") "en-GB")]
             Returned.
Proof.
  apply (directory_not_found "asthma" None "en-GB" 0.2%R (example_world [])).
  reflexivity.
Defined.

(** ** Sorting *)

Lemma Permutation_filter_compat {A : Type} (p : A -> bool) (l l' : list A) :
  Permutation l l' -> Permutation (filter p l) (filter p l').
Proof.
  induction 1 as [|x l l' _ IH|x y l|l l' l'' _ IH1 _ IH2]; simpl.
  - constructor.
  - destruct (p x); [now constructor | exact IH].
  - destruct (p x), (p y); try apply Permutation_refl. constructor.
  - now transitivity (filter p l').
Qed.

Lemma StronglySorted_filter {A : Type} (R : A -> A -> Prop) (p : A -> bool)
    (l : list A) :
  StronglySorted R l -> StronglySorted R (filter p l).
Proof.
  induction 1 as [|x l Hs IH Hall]; simpl; [constructor|].
  destruct (p x); [|exact IH]. constructor; [exact IH|].
  rewrite Forall_forall in *. intros y Hy. apply filter_In in Hy.
  apply Hall, Hy.
Qed.

Lemma filter_comm {A : Type} (p q : A -> bool) (l : list A) :
  filter p (filter q l) = filter q (filter p l).
Proof.
  induction l as [|x l IH]; simpl; [reflexivity|].
  destruct (p x) eqn:Ep, (q x) eqn:Eq; simpl; rewrite ?Ep, ?Eq, IH; reflexivity.
Qed.

Section SortingFacts.
Context {A K : Type}.
Variable key : A -> K.
Variable ltb : K -> K -> bool.

Lemma insert_desc_perm (x : A) (l : list A) :
  Permutation (insert_desc key ltb x l) (x :: l).
Proof.
  induction l as [|y r IH]; simpl; [apply Permutation_refl|].
  destruct (ltb (key x) (key y)); [|apply Permutation_refl].
  transitivity (y :: x :: r); [now constructor | constructor].
Qed.

Lemma sorted_reverse_perm (l : list A) :
  Permutation (sorted_reverse key ltb l) l.
Proof.
  induction l as [|x r IH]; simpl; [constructor|].
  transitivity (x :: sorted_reverse key ltb r);
    [apply insert_desc_perm | now constructor].
Qed.

(** Elements none of which is below another keep their order. *)
Lemma insert_desc_filter (p : A -> bool) (x : A) (l : list A) :
  (forall a b, p a = true -> p b = true -> ltb (key a) (key b) = false) ->
  filter p (insert_desc key ltb x l) = filter p (x :: l).
Proof.
  intros Hp. induction l as [|y r IH]; [reflexivity|].
  cbn [insert_desc]. destruct (ltb (key x) (key y)) eqn:E; [|reflexivity].
  cbn [filter] in *. destruct (p y) eqn:Ey, (p x) eqn:Ex;
    rewrite ?IH; try reflexivity.
  rewrite (Hp x y Ex Ey) in E. discriminate.
Qed.

Lemma sorted_reverse_stable (p : A -> bool) (l : list A) :
  (forall a b, p a = true -> p b = true -> ltb (key a) (key b) = false) ->
  filter p (sorted_reverse key ltb l) = filter p l.
Proof.
  intros Hp. induction l as [|x r IH]; [reflexivity|].
  cbn [sorted_reverse]. rewrite insert_desc_filter by exact Hp.
  simpl. now rewrite IH.
Qed.

Hypothesis ltb_asym : forall a b, ltb a b = true -> ltb b a = false.
Hypothesis ltb_negtrans :
  forall a b c, ltb a b = false -> ltb b c = false -> ltb a c = false.

Lemma insert_desc_sorted (x : A) (l : list A) :
  StronglySorted (not_below key ltb) l ->
  StronglySorted (not_below key ltb) (insert_desc key ltb x l).
Proof.
  induction 1 as [|y r Hs IH Hall]; simpl.
  - constructor; constructor.
  - destruct (ltb (key x) (key y)) eqn:E.
    + constructor; [exact IH|].
      apply (Permutation_Forall (Permutation_sym (insert_desc_perm x r))).
      constructor; [now apply ltb_asym | exact Hall].
    + constructor; [now constructor|].
      constructor; [exact E|].
      rewrite Forall_forall in *. intros z Hz.
      apply (ltb_negtrans _ (key y)); [exact E | now apply Hall].
Qed.

Lemma sorted_reverse_sorted (l : list A) :
  StronglySorted (not_below key ltb) (sorted_reverse key ltb l).
Proof.
  induction l as [|x r IH]; simpl; [constructor|].
  now apply insert_desc_sorted.
Qed.
End SortingFacts.

Lemma Rltb_true (a b : R) : Rltb a b = true <-> (a < b)%R.
Proof. unfold Rltb. destruct (Rlt_dec a b); split; congruence || auto. Qed.

Lemma Rltb_false (a b : R) : Rltb a b = false <-> (a >= b)%R.
Proof.
  unfold Rltb. destruct (Rlt_dec a b); split; intros; try congruence; lra.
Qed.

Lemma Rleb_true (a b : R) : Rleb a b = true <-> (a <= b)%R.
Proof. unfold Rleb. destruct (Rle_dec a b); split; congruence || auto. Qed.

Lemma has_score_true (s : R) (x : Path * R) : has_score s x = true <-> snd x = s.
Proof.
  unfold has_score. destruct (Req_dec_T (snd x) s); split; congruence || auto.
Qed.

(** [sorted(pairs, key=lambda x: x[1], reverse=True)] is a stable sort
    into descending order of score. *)
Lemma sorted_by_score (pairs : list (Path * R)) :
  let ranked := sorted_reverse snd Rltb pairs in
  Permutation ranked pairs /\
  StronglySorted (fun x y => (snd x >= snd y)%R) ranked /\
  forall s, filter (has_score s) ranked = filter (has_score s) pairs.
Proof.
  cbv zeta. split; [apply sorted_reverse_perm|]. split.
  - assert (H : StronglySorted (not_below snd Rltb)
                  (sorted_reverse snd Rltb pairs)).
    { apply sorted_reverse_sorted.
      - intros a b. rewrite Rltb_true, Rltb_false. lra.
      - intros a b c. rewrite !Rltb_false. lra. }
    induction H as [|x l Hs IH Hall]; constructor; [exact IH|].
    rewrite Forall_forall in *. intros y Hy.
    now apply Rltb_false, Hall.
  - intros s. apply sorted_reverse_stable.
    intros a b Ha Hb. apply has_score_true in Ha, Hb.
    apply Rltb_false. lra.
Qed.

(** ** Command [similar]: what is displayed *)

Lemma display_loop_filter (threshold : R) (ranked : list (Path * R)) :
  display_loop threshold ranked =
  (map (fun x => Scored (snd x) (name (fst x)))
       (filter (reaches threshold) ranked),
   existsb (reaches threshold) ranked).
Proof.
  induction ranked as [|[filepath score] rest IH]; [reflexivity|].
  cbn [display_loop filter existsb]. rewrite IH.
  change (reaches threshold (filepath, score)) with (Rleb threshold score).
  destruct (Rleb threshold score); reflexivity.
Qed.

Lemma scored_lines_app (a b : list echo) :
  scored_lines (a ++ b) = scored_lines a ++ scored_lines b.
Proof. apply flat_map_app. Qed.

Lemma scored_lines_display (threshold : R) (pairs : list (Path * R)) :
  scored_lines (display threshold pairs) =
  map shown_as (filter (reaches threshold) (sorted_reverse snd Rltb pairs)).
Proof.
  unfold display. rewrite display_loop_filter, scored_lines_app.
  replace (scored_lines
             (if existsb (reaches threshold) (sorted_reverse snd Rltb pairs)
              then [] else [NoSimilarConceptsFound])) with (@nil (R * string))
    by (destruct (existsb _ _); reflexivity).
  rewrite app_nil_r.
  induction (filter (reaches threshold) (sorted_reverse snd Rltb pairs))
    as [|x l IH]; [reflexivity|].
  simpl. now rewrite <- IH.
Qed.

Lemma read_concept_files_warnings (search_dir : Path) (entries : list dirent) :
  scored_lines (snd (read_concept_files search_dir entries)) = [].
Proof.
  induction entries as [|[nm n] rest IH]; [reflexivity|].
  cbn [read_concept_files].
  destruct (read_concept_files search_dir rest) as [[filepaths texts] out].
  destruct n as [[content|e]| |]; simpl in *; exact IH.
Qed.

Lemma read_concept_files_length (search_dir : Path) (entries : list dirent) :
  List.length (fst (fst (read_concept_files search_dir entries))) =
  List.length (snd (fst (read_concept_files search_dir entries))).
Proof.
  induction entries as [|[nm n] rest IH]; [reflexivity|].
  cbn [read_concept_files].
  destruct (read_concept_files search_dir rest) as [[filepaths texts] out].
  destruct n as [[content|e]| |]; simpl in *; congruence.
Qed.

Lemma similar_scored_lines (query : string) (directory : option string)
    (language : string) (threshold : R) (w : world) :
  scored_lines (echoed (similar query directory language threshold w)) =
  scored_lines (display threshold (candidates query directory language w)).
Proof.
  unfold similar, candidates, corpus.
  pose proof (read_concept_files_warnings
                (resolve_directory directory language w)
                (glob w (resolve_directory directory language w))) as Hw.
  unfold glob, path_exists in *.
  destruct (fs w (resolve_directory directory language w)) as [|entries|];
    cbn [negb]; try reflexivity.
  - destruct (read_concept_files _ entries) as [[filepaths texts] out].
    cbn [fst snd] in *. destruct texts as [|t texts].
    + cbn [echoed]. now rewrite scored_lines_app, Hw.
    + destruct (fit (query :: t :: texts)) as [e|vectorizer]; cbn [echoed].
      * now rewrite Hw.
      * now rewrite scored_lines_app, Hw.
Qed.

(** ** Vectors *)

Section Vectors.
Local Open Scope R_scope.

Lemma dot_nil_l (v : list R) : dot [] v = 0.
Proof. reflexivity. Qed.

Lemma dot_cons (x y : R) (u v : list R) :
  dot (x :: u) (y :: v) = x * y + dot u v.
Proof. reflexivity. Qed.

Lemma dot_comm (u v : list R) : dot u v = dot v u.
Proof.
  revert v. induction u as [|x u IH]; intros [|y v]; try reflexivity.
  rewrite !dot_cons, IH. ring.
Qed.

Lemma dot_self_nonneg (v : list R) : 0 <= dot v v.
Proof.
  induction v as [|x v IH]; [unfold dot; simpl; lra|].
  rewrite dot_cons. pose proof (Rle_0_sqr x) as Hx. unfold Rsqr in Hx. lra.
Qed.

Lemma dot_scale (a b : R) (u v : list R) :
  dot (map (fun x => x * a) u) (map (fun y => y * b) v) = a * b * dot u v.
Proof.
  revert v. induction u as [|x u IH]; intros [|y v]; simpl map;
    try (unfold dot; simpl; ring).
  rewrite !dot_cons, IH. ring.
Qed.

Lemma dot_self_zero (v : list R) : dot v v = 0 -> all_zero v.
Proof.
  induction v as [|x v IH]; intros H; [constructor|].
  rewrite dot_cons in H. pose proof (dot_self_nonneg v) as Hv.
  pose proof (Rle_0_sqr x) as Hx. unfold Rsqr in Hx.
  constructor.
  - apply Rsqr_0_uniq. unfold Rsqr. lra.
  - apply IH. lra.
Qed.

Lemma all_zero_dot (u v : list R) : all_zero u -> dot u v = 0.
Proof.
  intros H. revert v. induction H as [|x u Hx _ IH]; intros [|y v];
    try reflexivity.
  rewrite dot_cons, IH, Hx. ring.
Qed.

Lemma all_zero_scale (a : R) (v : list R) :
  all_zero v -> all_zero (map (fun x => x / a) v).
Proof.
  induction 1 as [|x v Hx _ IH]; simpl; constructor; [|exact IH].
  rewrite Hx. unfold Rdiv. ring.
Qed.

Lemma norm_l2_zero (v : list R) : norm_l2 v = 0 <-> all_zero v.
Proof.
  unfold norm_l2. split.
  - intros H. apply dot_self_zero, sqrt_eq_0; [apply dot_self_nonneg | exact H].
  - intros H. rewrite (all_zero_dot v v H). apply sqrt_0.
Qed.

Lemma norm_l2_sqr (v : list R) : norm_l2 v * norm_l2 v = dot v v.
Proof. apply sqrt_sqrt, dot_self_nonneg. Qed.

Lemma norm_l2_unit (v : list R) :
  norm_l2 v <> 0 -> norm_l2 (map (fun x => x / norm_l2 v) v) = 1.
Proof.
  intros H. unfold norm_l2 at 1. unfold Rdiv. rewrite dot_scale.
  rewrite <- norm_l2_sqr.
  replace (/ norm_l2 v * / norm_l2 v * (norm_l2 v * norm_l2 v)) with 1
    by (field; exact H).
  apply sqrt_1.
Qed.

Lemma normalize_zero (v : list R) : norm_l2 v = 0 -> normalize v = v.
Proof. intros H. unfold normalize. now destruct (Req_dec_T (norm_l2 v) 0). Qed.

Lemma normalize_nonzero (v : list R) :
  norm_l2 v <> 0 -> normalize v = l2_normalize_spec v.
Proof.
  intros H. unfold normalize, l2_normalize_spec.
  now destruct (Req_dec_T (norm_l2 v) 0).
Qed.

Lemma normalize_idempotent (v : list R) : normalize (normalize v) = normalize v.
Proof.
  destruct (Req_dec_T (norm_l2 v) 0) as [H|H].
  - rewrite (normalize_zero v H). now apply normalize_zero.
  - rewrite (normalize_nonzero v H). unfold normalize, l2_normalize_spec.
    rewrite (norm_l2_unit v H).
    destruct (Req_dec_T 1 0) as [H1|_]; [lra|].
    rewrite <- (map_id (map (fun x => x / norm_l2 v) v)) at 2.
    apply map_ext. intros x. field.
Qed.

(** The product of the twice-normalized rows, as [cosine_similarity]
    forms it from the rows of [transform], is the cosine similarity of
    the L2-normalized vectors. *)
Lemma cosine_of_normalized (u v : list R) :
  dot (normalize (normalize u)) (normalize (normalize v)) =
  cosine_spec (l2_normalize_spec u) (l2_normalize_spec v).
Proof.
  rewrite !normalize_idempotent. unfold cosine_spec.
  destruct (Req_dec_T (norm_l2 u) 0) as [Hu|Hu].
  - assert (Zu : all_zero u) by now apply norm_l2_zero.
    assert (Hn : norm_l2 (l2_normalize_spec u) = 0)
      by (apply norm_l2_zero; now apply all_zero_scale).
    rewrite Hn, Rmult_0_l, (normalize_zero u Hu), (all_zero_dot _ _ Zu).
    now destruct (Req_dec_T 0 0).
  - destruct (Req_dec_T (norm_l2 v) 0) as [Hv|Hv].
    + assert (Zv : all_zero v) by now apply norm_l2_zero.
      assert (Hn : norm_l2 (l2_normalize_spec v) = 0)
        by (apply norm_l2_zero; now apply all_zero_scale).
      rewrite Hn, Rmult_0_r, (normalize_zero v Hv), dot_comm,
        (all_zero_dot _ _ Zv).
      now destruct (Req_dec_T 0 0).
    + rewrite (normalize_nonzero u Hu), (normalize_nonzero v Hv).
      pose proof (norm_l2_unit u Hu) as Hnu.
      pose proof (norm_l2_unit v Hv) as Hnv.
      fold (l2_normalize_spec u) in Hnu. fold (l2_normalize_spec v) in Hnv.
      rewrite Hnu, Hnv.
      destruct (Req_dec_T (1 * 1) 0) as [H1|_]; [lra|]. field.
Qed.
End Vectors.

(** ** The fitted model *)

Lemma fit_raises (docs : list string) :
  vocabulary docs = [] ->
  fit docs = inl (ValueError
    "empty vocabulary; perhaps the documents only contain stop words").
Proof. intros H. unfold fit. now rewrite H. Qed.

Lemma fit_fitted (docs : list string) :
  vocabulary docs <> [] ->
  fit docs =
  inr (mkVectorizer (vocabulary docs)
         (map (fun term => idf (List.length docs)
                               (document_frequency term (map analyze docs)))
              (vocabulary docs))).
Proof.
  intros H. unfold fit. destruct (vocabulary docs); [congruence|reflexivity].
Qed.

Lemma document_frequency_agrees (term : string) (docs : list string) :
  document_frequency term (map analyze docs) = document_frequency_spec term docs.
Proof.
  unfold document_frequency, document_frequency_spec.
  induction docs as [|d docs IH]; [reflexivity|].
  cbn [map filter].
  assert (E : existsb (String.eqb term) (analyze d) =
              if in_dec string_dec term (analyze d) then true else false).
  { destruct (in_dec string_dec term (analyze d)) as [Hin|Hin].
    - apply existsb_exists. exists term. split; [exact Hin|apply String.eqb_refl].
    - destruct (existsb (String.eqb term) (analyze d)) eqn:Ex; [|reflexivity].
      apply existsb_exists in Ex. destruct Ex as [x [Hx Heq]].
      apply String.eqb_eq in Heq. subst x. contradiction. }
  rewrite <- E. destruct (existsb (String.eqb term) (analyze d)); simpl;
    now rewrite IH.
Qed.

Lemma idf_agrees (term : string) (docs : list string) :
  idf (List.length docs) (document_frequency term (map analyze docs)) =
  idf_spec docs term.
Proof.
  unfold idf, idf_spec. rewrite document_frequency_agrees, !plus_INR.
  change (INR 1) with 1%R.
  now rewrite (Rplus_comm (INR (List.length docs))),
    (Rplus_comm (INR (document_frequency_spec term docs))).
Qed.

Lemma combine_map_r {A B : Type} (f : A -> B) (l : list A) :
  combine l (map f l) = map (fun a => (a, f a)) l.
Proof. induction l as [|a l IH]; simpl; [reflexivity | now rewrite IH]. Qed.

Lemma transform_row_fitted (docs : list string) (doc : string) :
  transform_row
    (mkVectorizer (vocabulary docs)
       (map (fun term => idf (List.length docs)
                             (document_frequency term (map analyze docs)))
            (vocabulary docs))) doc =
  normalize (tfidf_spec docs doc).
Proof.
  unfold transform_row, tfidf_spec. cbn [vocabulary_ idf_].
  rewrite combine_map_r, map_map. f_equal.
  apply map_ext. intros term. cbn [fst snd]. now rewrite idf_agrees.
Qed.

Lemma similarity_scores_fitted (query : string) (texts : list string)
    (vectorizer : TfidfVectorizer) :
  fit (query :: texts) = inr vectorizer ->
  similarity_scores vectorizer query texts =
  map (score_spec query texts) texts.
Proof.
  intros Hfit.
  assert (Hv : vocabulary (query :: texts) <> []).
  { intros H. rewrite (fit_raises _ H) in Hfit. discriminate. }
  rewrite (fit_fitted _ Hv) in Hfit. inversion Hfit as [Hvec]. clear Hfit.
  unfold similarity_scores, transform, cosine_similarity, flatten.
  cbn [map firstn skipn List.concat]. rewrite app_nil_r, map_map.
  apply map_ext. intros doc. rewrite !transform_row_fitted.
  apply cosine_of_normalized.
Qed.

Lemma similarity_scores_length (query : string) (texts : list string)
    (vectorizer : TfidfVectorizer) :
  List.length (similarity_scores vectorizer query texts) = List.length texts.
Proof.
  unfold similarity_scores, transform, cosine_similarity, flatten.
  cbn [map firstn skipn List.concat]. now rewrite app_nil_r, !length_map.
Qed.

(** ** Command [similar] *)

Lemma read_concept_files_exists (w : world) (p : Path) :
  snd (fst (read_concept_files p (glob w p))) <> [] -> path_exists w p = true.
Proof.
  unfold glob, path_exists. destruct (fs w p); simpl; congruence.
Qed.

Lemma similar_unfold (query : string) (directory : option string)
    (language : string) (threshold : R) (w : world) :
  let search_dir := resolve_directory directory language w in
  let filepaths := fst (corpus directory language w) in
  let texts := snd (corpus directory language w) in
  let out := snd (read_concept_files search_dir (glob w search_dir)) in
  texts <> [] ->
  similar query directory language threshold w =
  match fit (query :: texts) with
  | inl e => mkResult out (Raised e)
  | inr vectorizer =>
      mkResult (out ++ display threshold
                         (combine filepaths
                            (similarity_scores vectorizer query texts)))
               Returned
  end.
Proof.
  intros search_dir filepaths texts out Htexts.
  subst filepaths texts out. unfold corpus in *. fold search_dir in Htexts |- *.
  unfold similar. fold search_dir.
  rewrite (read_concept_files_exists w search_dir Htexts). cbn [negb].
  destruct (read_concept_files search_dir (glob w search_dir))
    as [[filepaths texts] out].
  cbn [fst snd] in *. destruct texts; [congruence|reflexivity].
Qed.

Lemma candidates_unfold (query : string) (directory : option string)
    (language : string) (w : world) :
  let filepaths := fst (corpus directory language w) in
  let texts := snd (corpus directory language w) in
  texts <> [] ->
  candidates query directory language w =
  match fit (query :: texts) with
  | inl _ => []
  | inr vectorizer =>
      combine filepaths (similarity_scores vectorizer query texts)
  end.
Proof.
  intros filepaths texts Htexts. subst filepaths texts. unfold candidates.
  destruct (corpus directory language w) as [filepaths texts].
  cbn [fst snd] in *. destruct texts; [congruence|reflexivity].
Qed.

Lemma map_fst_combine {A B : Type} (l : list A) (l' : list B) :
  List.length l = List.length l' -> map fst (combine l l') = l.
Proof.
  revert l'. induction l as [|a l IH]; intros [|b l'] H; simpl in *;
    try congruence.
  f_equal. apply IH. congruence.
Qed.

Lemma candidates_scored (query : string) (directory : option string)
    (language : string) (w : world) :
  let filepaths := fst (corpus directory language w) in
  let texts := snd (corpus directory language w) in
  texts <> [] ->
  vocabulary (query :: texts) <> [] ->
  candidates query directory language w =
  combine filepaths (map (score_spec query texts) texts).
Proof.
  intros filepaths texts Htexts Hvoc.
  pose proof (candidates_unfold query directory language w Htexts) as Hcand.
  fold filepaths texts in Hcand.
  pose proof (fit_fitted _ Hvoc) as Hfit.
  rewrite Hcand, Hfit. f_equal. now apply similarity_scores_fitted.
Qed.

(** C1: when [similar] gets as far as scoring (some file could be read
    and some document has a token), the score it pairs with each corpus
    document is the cosine similarity of the L2-normalized TF-IDF vectors
    of the query and of that document, over the document set that starts
    with the query, and its output is the display of those pairs. *)
Theorem similar_scores_tfidf_cosine (query : string)
    (directory : option string) (language : string) (threshold : R)
    (w : world) :
  let search_dir := resolve_directory directory language w in
  let filepaths := fst (corpus directory language w) in
  let texts := snd (corpus directory language w) in
  let out := snd (read_concept_files search_dir (glob w search_dir)) in
  texts <> [] ->
  vocabulary (query :: texts) <> [] ->
  candidates query directory language w =
    combine filepaths (map (score_spec query texts) texts) /\
  similar query directory language threshold w =
    mkResult
      (out ++ display threshold
                (combine filepaths (map (score_spec query texts) texts)))
      Returned.
Proof.
  intros search_dir filepaths texts out Htexts Hvoc.
  pose proof (similar_unfold query directory language threshold w Htexts)
    as Hsim.
  fold search_dir filepaths texts out in Hsim.
  pose proof (fit_fitted _ Hvoc) as Hfit.
  pose proof (candidates_unfold query directory language w Htexts) as Hcand.
  fold filepaths texts in Hcand.
  rewrite Hsim, Hcand, Hfit.
  rewrite (similarity_scores_fitted query texts _ Hfit). split; reflexivity.
Qed.

Lemma similar_scores_tfidf_cosine_witness :
  let w := example_world kidney_corpus in
  let filepaths := fst (corpus (Some "terms") "en-GB" w) in
  let texts := snd (corpus (Some "terms") "en-GB" w) in
  let out := snd (read_concept_files (PurePath "terms")
                    (glob w (PurePath "terms"))) in
  candidates "kidney disease" (Some "terms") "en-GB" w =
    combine filepaths (map (score_spec "kidney disease" texts) texts) /\
  similar "kidney disease" (Some "terms") "en-GB" 0.1%R w =
    mkResult
      (out ++ display 0.1%R
                (combine filepaths
                   (map (score_spec "kidney disease" texts) texts)))
      Returned.
Proof.
  intros w filepaths texts out.
  apply (similar_scores_tfidf_cosine "kidney disease" (Some "terms") "en-GB"
           0.1%R w).
  - vm_compute. discriminate.
  - vm_compute. discriminate.
Defined.

(** C4, at a directory whose one file is empty and a query of a single
    letter: no document has a token, the fit raises [ValueError], and
    the exception leaves [similar]. *)
Theorem similar_raises_on_empty_vocabulary :
  similar "a" (Some "terms") "en-GB" 0.2%R
          (example_world [("AB12CD", RegularFile (Text ""))]) =
  mkResult []
    (Raised (ValueError
       "empty vocabulary; perhaps the documents only contain stop words")).
Proof.
  rewrite similar_unfold by (vm_compute; discriminate).
  rewrite fit_raises by (vm_compute; reflexivity).
  reflexivity.
Qed.

(** C5: the score lines [similar] prints are those of the candidate pairs
    whose score is greater than or equal to the threshold, each once, in
    descending order of score, pairs of equal score in the order of the
    candidates; and when [similar] returns, every file of the corpus is a
    candidate. *)
Theorem similar_ranked_results (query : string) (directory : option string)
    (language : string) (threshold : R) (w : world) :
  let pairs := candidates query directory language w in
  let r := similar query directory language threshold w in
  exists shown : list (Path * R),
    scored_lines (echoed r) = map shown_as shown /\
    Permutation shown (filter (reaches threshold) pairs) /\
    (forall x, In x shown <-> In x pairs /\ (snd x >= threshold)%R) /\
    StronglySorted (fun x y => (snd x >= snd y)%R) shown /\
    (forall s, filter (has_score s) shown =
               filter (has_score s) (filter (reaches threshold) pairs)) /\
    (ending_of r = Returned -> map fst pairs = fst (corpus directory language w)).
Proof.
  intros pairs r.
  destruct (sorted_by_score pairs) as [Hperm [Hsorted Hstable]].
  exists (filter (reaches threshold) (sorted_reverse snd Rltb pairs)).
  split; [|split; [|split; [|split; [|split]]]].
  - subst r pairs. rewrite similar_scored_lines. apply scored_lines_display.
  - now apply Permutation_filter_compat.
  - intros x. rewrite filter_In. unfold reaches. rewrite Rleb_true. split.
    + intros [Hin Hle]. split; [|lra].
      now apply (Permutation_in _ Hperm).
    + intros [Hin Hge]. split; [|lra].
      now apply (Permutation_in _ (Permutation_sym Hperm)).
  - now apply StronglySorted_filter.
  - intros s. rewrite filter_comm, Hstable. apply filter_comm.
  - subst r pairs. unfold similar, candidates, corpus.
    pose proof (read_concept_files_length
                  (resolve_directory directory language w)
                  (glob w (resolve_directory directory language w))) as Hlen.
    unfold glob, path_exists in *.
    destruct (fs w (resolve_directory directory language w)) as [|entries|];
      cbn [negb]; try reflexivity.
    destruct (read_concept_files _ entries) as [[filepaths texts] out].
    cbn [fst snd] in *. destruct texts as [|t texts].
    + destruct filepaths; [reflexivity | discriminate Hlen].
    + destruct (fit (query :: t :: texts)) as [e|vectorizer]; cbn [ending_of].
      * discriminate.
      * intros _. apply map_fst_combine.
        now rewrite similarity_scores_length.
Qed.

(** C9: the result of [similar] is a function of its arguments and of
    the state of the directory it reads: two worlds that agree on that
    directory give the same lines, with the same scores, in the same
    order, whatever their random tapes and the rest of their file
    systems. *)
Theorem similar_deterministic (query : string) (directory : option string)
    (language : string) (threshold : R) (w1 w2 : world) :
  install_root w1 = install_root w2 ->
  fs w1 (resolve_directory directory language w1) =
  fs w2 (resolve_directory directory language w2) ->
  similar query directory language threshold w1 =
  similar query directory language threshold w2.
Proof.
  intros Hroot Hfs.
  assert (Hdir : resolve_directory directory language w1 =
                 resolve_directory directory language w2).
  { unfold resolve_directory, get_terms_directory. now rewrite Hroot. }
  unfold similar, path_exists, glob. rewrite <- Hdir in *. now rewrite Hfs.
Qed.

Lemma similar_deterministic_witness :
  similar "kidney disease" (Some "terms") "en-GB" 0.1%R
          (example_world kidney_corpus) =
  similar "kidney disease" (Some "terms") "en-GB" 0.1%R
          (other_world (example_world kidney_corpus)).
Proof.
  apply (similar_deterministic "kidney disease" (Some "terms") "en-GB" 0.1%R
           (example_world kidney_corpus)
           (other_world (example_world kidney_corpus)));
    reflexivity.
Defined.

(** ** The model at work *)

Example analyze_example :
  analyze "Chronic kidney-disease, stage 3 (CKD_3) a b" =
  ["chronic"; "kidney"; "disease"; "stage"; "ckd_3"].
Proof. reflexivity. Qed.

Example strip_example :
  strip (String "009" (String "010" " type 2  diabetes  ")) = "type 2  diabetes".
Proof. reflexivity. Qed.

Example search_example :
  echoed (search "KIDNEY" (Some "terms") "en-GB"
            (example_world (("kidney-notes", Subdirectory) :: kidney_corpus))) =
  [FoundByFilename (Join (PurePath "terms") "kidney-notes");
   FoundByContent "A" "chronic kidney disease stage 3";
   FoundByContent "B" "acute kidney injury";
   CouldNotRead (Join (PurePath "terms") "X")
                "'utf-8' codec can't decode byte 0xff"].
Proof. reflexivity. Qed.

Example search_no_match_example :
  search "asthma" (Some "terms") "en-GB" (example_world []) =
  mkResult [NoMatchesFound] Returned.
Proof. reflexivity. Qed.

Example new_example :
  let w := mkWorld (fs (example_world [("000000", RegularFile (Text "x"))]))
                   (PurePath "/opt/oct") (fun n => n / 6) 0 in
  fst (new (Some "terms") "en-GB" w) =
    mkResult [CreatedNewConceptFile (Join (PurePath "terms") "111111");
              ConceptID "111111"] Returned /\
  fs (snd (new (Some "terms") "en-GB" w)) (PurePath "terms") =
    Directory [("000000", RegularFile (Text "x"));
               ("111111", RegularFile (Text ""))] /\
  drawn (snd (new (Some "terms") "en-GB" w)) = 12.
Proof. vm_compute. repeat split. Qed.

Example new_not_a_directory :
  let w := set_fs (example_world []) (PurePath "notes.txt") NotADirectory in
  fst (new (Some "notes.txt") "en-GB" w) = mkResult [] (Raised FileExistsError).
Proof. reflexivity. Qed.

Example sorted_reverse_example :
  sorted_reverse snd Nat.ltb [("a", 2); ("b", 5); ("c", 2); ("d", 9); ("e", 5)] =
  [("d", 9); ("b", 5); ("e", 5); ("a", 2); ("c", 2)].
Proof. reflexivity. Qed.

Ltac compare_reals :=
  repeat match goal with
         | |- context [Rlt_dec ?a ?b] => destruct (Rlt_dec a b); try lra
         | |- context [Rle_dec ?a ?b] => destruct (Rle_dec a b); try lra
         end.

Ltac run_display :=
  unfold display;
  repeat (cbn [sorted_reverse insert_desc display_loop snd fst name app];
          unfold Rltb, Rleb; progress compare_reals);
  cbn [sorted_reverse insert_desc display_loop snd fst name app];
  reflexivity.

(** A score equal to the threshold is displayed, one below it is not,
    and equal scores keep their order. *)
Example display_example :
  display 0.2%R [(Join (PurePath "terms") "A", 0.5%R);
                 (Join (PurePath "terms") "B", 0.2%R);
                 (Join (PurePath "terms") "C", 0.1%R);
                 (Join (PurePath "terms") "D", 0.5%R)] =
  [Scored 0.5%R "A"; Scored 0.5%R "D"; Scored 0.2%R "B"].
Proof. run_display. Qed.

Example display_nothing_example :
  display 0.9%R [(Join (PurePath "terms") "A", 0.5%R)] =
  [NoSimilarConceptsFound].
Proof. run_display. Qed.

Example similar_no_readable_files :
  similar "kidney" (Some "terms") "en-GB" 0.2%R
          (example_world [("archive", Subdirectory);
                          ("X", RegularFile (Unreadable "denied"))]) =
  mkResult [CouldNotRead (Join (PurePath "terms") "X") "denied";
            NoReadableFilesFound] Returned.
Proof. reflexivity. Qed.

(** ** Documents that share no term with the query *)

Lemma dot_map_orthogonal {T : Type} (f g : T -> R) (l : list T) :
  (forall t, In t l -> (f t * g t)%R = 0%R) ->
  dot (map f l) (map g l) = 0%R.
Proof.
  induction l as [|t l IH]; intros H; [reflexivity|].
  cbn [map]. rewrite dot_cons, IH, H.
  - ring.
  - now left.
  - intros t' Ht'. apply H. now right.
Qed.

Lemma cosine_spec_orthogonal (u v : list R) :
  dot u v = 0%R ->
  cosine_spec (l2_normalize_spec u) (l2_normalize_spec v) = 0%R.
Proof.
  intros H. unfold cosine_spec.
  destruct (Req_dec_T _ 0) as [_|_]; [reflexivity|].
  unfold l2_normalize_spec at 1 2. unfold Rdiv at 2 3.
  rewrite dot_scale, H. unfold Rdiv. ring.
Qed.

(** A document none of whose tokens is a token of the query scores 0. *)
Lemma score_spec_no_shared_term (query : string) (texts : list string)
    (doc : string) :
  (forall term, In term (analyze query) -> ~ In term (analyze doc)) ->
  score_spec query texts doc = 0%R.
Proof.
  intros H. unfold score_spec. cbn [hd].
  apply cosine_spec_orthogonal. unfold tfidf_spec.
  apply dot_map_orthogonal. intros term _. unfold term_frequency.
  destruct (in_dec string_dec term (analyze query)) as [Hin|Hin].
  - apply H in Hin. apply (count_occ_not_In string_dec) in Hin.
    rewrite Hin. simpl. ring.
  - apply (count_occ_not_In string_dec) in Hin. rewrite Hin. simpl. ring.
Qed.

(** The example scenario: at threshold 0.1 no line is printed for C,
    which shares no term with the query. *)
Example similar_excludes_unrelated (score : R) :
  ~ In (score, "C")
       (scored_lines
          (echoed (similar "kidney disease" (Some "terms") "en-GB" 0.1%R
                           (example_world kidney_corpus)))).
Proof.
  rewrite similar_scored_lines, scored_lines_display.
  rewrite candidates_scored by (vm_compute; discriminate).
  change (corpus (Some "terms") "en-GB" (example_world kidney_corpus))
    with ([Join (PurePath "terms") "A"; Join (PurePath "terms") "B";
           Join (PurePath "terms") "C"],
          ["chronic kidney disease stage 3"; "acute kidney injury";
           "type 2 diabetes mellitus"]).
  cbn [fst snd map combine].
  intros Hin. apply in_map_iff in Hin. destruct Hin as [[p s] [Hshown Hin]].
  apply filter_In in Hin. destruct Hin as [Hin Hreach].
  apply (Permutation_in _ (sorted_reverse_perm snd Rltb _)) in Hin.
  unfold shown_as in Hshown. cbn [fst snd] in Hshown.
  injection Hshown as _ Hname.
  unfold reaches in Hreach. cbn [snd] in Hreach. apply Rleb_true in Hreach.
  destruct Hin as [Hp|[Hp|[Hp|[]]]]; injection Hp as Hp Hs;
    rewrite <- Hp in Hname; cbn [name] in Hname; try discriminate Hname.
  assert (Hzero : s = 0%R).
  { rewrite <- Hs. apply score_spec_no_shared_term.
    vm_compute. intros term [<-|[<-|[]]] H;
      repeat (destruct H as [H|H]; [discriminate H|]); exact H. }
  lra.
Qed.

(** * Further properties *)

(** ** The generator and the tape *)

#[local] Transparent choice.

Lemma choice_symbol (w : world) :
  fst (choice CROCKFORD_BASE32 w) = symbol_at (entropy w (drawn w)).
Proof. reflexivity. Qed.

#[local] Opaque choice.

Lemma generate_symbols (n : nat) (w : world) :
  list_ascii_of_string (fst (generate_crockford_base32_id n w)) =
  map (fun i => symbol_at (entropy w (drawn w + i))) (seq 0 n).
Proof.
  revert w. induction n as [|n IH]; intros w; [reflexivity|].
  rewrite generate_S.
  pose proof (choice_symbol w) as Hc.
  pose proof (choice_world CROCKFORD_BASE32 w) as Hw.
  destruct (choice CROCKFORD_BASE32 w) as [c w1]. cbn [fst snd] in Hc, Hw.
  subst c w1. specialize (IH (skip 1 w)).
  destruct (generate_crockford_base32_id n (skip 1 w)) as [rest w2].
  cbn [fst list_ascii_of_string] in *. rewrite IH.
  cbn [seq map]. rewrite Nat.add_0_r. f_equal.
  rewrite <- seq_shift, map_map. apply map_ext. intros i.
  cbn [skip entropy drawn]. f_equal. f_equal. lia.
Qed.

Lemma symbol_at_alphabet (draw : nat) : In (symbol_at draw) alphabet.
Proof.
  unfold symbol_at.
  destruct (get_In CROCKFORD_BASE32 (draw mod String.length CROCKFORD_BASE32))
    as [c [Hg Hc]].
  - apply Nat.mod_upper_bound. discriminate.
  - rewrite Hg. exact Hc.
Qed.

Lemma symbol_at_index_of (c : ascii) :
  In c alphabet -> symbol_at (index_of c alphabet) = c.
Proof.
  intros H. unfold alphabet in H. cbn in H.
  repeat (destruct H as [<-|H]; [vm_compute; reflexivity|]). contradiction.
Qed.

Lemma index_of_symbol_at (draw : nat) :
  index_of (symbol_at draw) alphabet = draw mod 32.
Proof.
  unfold symbol_at. change (String.length CROCKFORD_BASE32) with 32.
  assert (H : draw mod 32 < 32) by (apply Nat.mod_upper_bound; discriminate).
  generalize dependent (draw mod 32). intros i H.
  do 32 (destruct i as [|i]; [vm_compute; reflexivity|]). lia.
Qed.

Lemma symbol_at_inj (a b : nat) :
  symbol_at a = symbol_at b <-> a mod 32 = b mod 32.
Proof.
  split; intros H.
  - rewrite <- !index_of_symbol_at. now rewrite H.
  - unfold symbol_at. change (String.length CROCKFORD_BASE32) with 32.
    now rewrite H.
Qed.

Lemma list_ascii_of_string_length (s : string) :
  List.length (list_ascii_of_string s) = String.length s.
Proof. induction s as [|c s IH]; simpl; congruence. Qed.

Lemma list_ascii_of_string_inj (s t : string) :
  list_ascii_of_string s = list_ascii_of_string t -> s = t.
Proof.
  intros H. rewrite <- (string_of_list_ascii_of_string s),
    <- (string_of_list_ascii_of_string t). now rewrite H.
Qed.

Lemma map_nth_seq_fix {T : Type} (g : T -> T) (d : T) (l : list T) :
  Forall (fun x => g x = x) l ->
  map (fun i => g (nth i l d)) (seq 0 (List.length l)) = l.
Proof.
  induction 1 as [|x l Hx _ IH]; [reflexivity|].
  cbn [List.length seq map nth]. rewrite Hx. f_equal.
  rewrite <- seq_shift, map_map. exact IH.
Qed.

(** X1: for every length, the generator returns that many characters,
    all of them symbols of the alphabet, and has made that many draws. *)
Theorem generate_any_length (n : nat) (w : world) :
  String.length (fst (generate_crockford_base32_id n w)) = n /\
  Forall (fun c => In c alphabet)
         (list_ascii_of_string (fst (generate_crockford_base32_id n w))) /\
  snd (generate_crockford_base32_id n w) = skip n w.
Proof.
  split; [apply generate_length|].
  split; [apply generate_alphabet | apply generate_world].
Qed.

(** X2: every string over the alphabet is generated by some tape: the
    one that draws the positions of its characters. *)
Theorem generate_onto (identifier : string) (w : world) :
  Forall (fun c => In c alphabet) (list_ascii_of_string identifier) ->
  fst (generate_crockford_base32_id (String.length identifier)
         (with_tape w (tape_for (drawn w) (list_ascii_of_string identifier)))) =
  identifier.
Proof.
  intros H. apply list_ascii_of_string_inj. rewrite generate_symbols.
  cbn [with_tape entropy drawn]. unfold tape_for.
  rewrite <- list_ascii_of_string_length.
  rewrite <- (map_nth_seq_fix (fun c => symbol_at (index_of c alphabet))
                " "%char (list_ascii_of_string identifier)) at 2.
  - apply map_ext. intros i.
    replace (drawn w + i - drawn w) with i by lia. reflexivity.
  - apply Forall_impl with (2 := H). intros c Hc.
    now apply symbol_at_index_of.
Qed.

Lemma generate_onto_witness :
  fst (generate_crockford_base32_id (String.length "Z6DMV2")
         (with_tape (skip 17 (example_world []))
            (tape_for (drawn (skip 17 (example_world [])))
                      (list_ascii_of_string "Z6DMV2")))) = "Z6DMV2".
Proof.
  apply (generate_onto "Z6DMV2" (skip 17 (example_world []))).
  apply Forall_forall. intros c Hc. cbn in Hc.
  repeat (destruct Hc as [<-|Hc];
          [vm_compute; repeat (first [left; reflexivity | right])|]).
  contradiction.
Defined.

(** X3: two runs of the generator return the same string exactly when
    their draws agree modulo 32, position by position. *)
Theorem generate_same_iff (n : nat) (w w' : world) :
  fst (generate_crockford_base32_id n w) =
  fst (generate_crockford_base32_id n w') <->
  forall i, i < n ->
    entropy w (drawn w + i) mod 32 = entropy w' (drawn w' + i) mod 32.
Proof.
  split.
  - intros H i Hi. apply symbol_at_inj.
    apply (f_equal list_ascii_of_string) in H.
    rewrite !generate_symbols in H.
    apply (ext_in_map H). apply in_seq. lia.
  - intros H. apply list_ascii_of_string_inj. rewrite !generate_symbols.
    apply map_ext_in. intros i Hi. apply in_seq in Hi.
    apply symbol_at_inj, H. lia.
Qed.

Lemma generate_tape_ext (n : nat) (w w' : world) :
  (forall i, i < n -> entropy w (drawn w + i) = entropy w' (drawn w' + i)) ->
  fst (generate_crockford_base32_id n w) =
  fst (generate_crockford_base32_id n w').
Proof.
  intros H. apply list_ascii_of_string_inj. rewrite !generate_symbols.
  apply map_ext_in. intros i Hi. apply in_seq in Hi. rewrite H by lia.
  reflexivity.
Qed.

(** ** The candidates of [new] *)

Lemma candidate_0 (w : world) :
  candidate 0 w = fst (generate_crockford_base32_id 6 w).
Proof. unfold candidate. now rewrite skip_0. Qed.

Lemma candidate_skip (k : nat) (w : world) :
  candidate k (skip 6 w) = candidate (S k) w.
Proof.
  unfold candidate. rewrite skip_skip. do 3 f_equal. lia.
Qed.


Lemma candidate_shape (k : nat) (w : world) :
  String.length (candidate k w) = 6 /\
  Forall (fun c => In c alphabet) (list_ascii_of_string (candidate k w)).
Proof.
  unfold candidate. split; [apply generate_length | apply generate_alphabet].
Qed.

(** What the loop returns, read backwards: the first free candidate, or
    none when all collide. *)
Lemma new_loop_inv (attempts : nat) (target_dir : Path) (w : world)
    (res : option string) (w' : world) :
  new_loop attempts target_dir w = (res, w') ->
  match res with
  | Some identifier =>
      exists k, k < attempts /\ identifier = candidate k w /\
        (forall j, j < k -> file_exists w target_dir (candidate j w) = true) /\
        file_exists w target_dir identifier = false /\
        w' = touch (skip (6 * S k) w) target_dir identifier
  | None =>
      (forall k, k < attempts ->
         file_exists w target_dir (candidate k w) = true) /\
      w' = skip (6 * attempts) w
  end.
Proof.
  revert w. induction attempts as [|n IH]; intros w H.
  - inversion H; subst. split; [intros k Hk; lia | now rewrite skip_0].
  - rewrite new_loop_S in H.
    pose proof (generate_world 6 w) as Hw.
    pose proof (candidate_0 w) as Hc.
    destruct (generate_crockford_base32_id 6 w) as [cand w1].
    cbn [fst snd] in Hw, Hc. subst w1.
    rewrite file_exists_skip in H.
    destruct (file_exists w target_dir cand) eqn:E.
    + apply IH in H. destruct res as [identifier|].
      * destruct H as [k [Hk [Hid [Hbefore [Hfree Hw']]]]].
        exists (S k). rewrite candidate_skip in Hid.
        split; [lia|]. split; [exact Hid|]. split; [|split].
        -- intros [|j] Hj; [now rewrite Hc|].
           rewrite <- candidate_skip, <- (file_exists_skip 6). apply Hbefore.
           lia.
        -- now rewrite <- (file_exists_skip 6).
        -- rewrite Hw', skip_skip. do 2 f_equal. lia.
      * destruct H as [Hall Hw']. split.
        -- intros [|k] Hk; [now rewrite Hc|].
           rewrite <- candidate_skip, <- (file_exists_skip 6). apply Hall. lia.
        -- rewrite Hw', skip_skip. f_equal. lia.
    + inversion H; subst. exists 0.
      split; [lia|]. split; [reflexivity|]. split; [intros j Hj; lia|].
      split; [exact E | reflexivity].
Qed.

Lemma new_loop_first_free (attempts k : nat) (target_dir : Path) (w : world) :
  k < attempts ->
  (forall j, j < k -> file_exists w target_dir (candidate j w) = true) ->
  file_exists w target_dir (candidate k w) = false ->
  new_loop attempts target_dir w =
  (Some (candidate k w),
   touch (skip (6 * S k) w) target_dir (candidate k w)).
Proof.
  intros Hk Hbefore Hfree.
  destruct (new_loop attempts target_dir w) as [res w'] eqn:E.
  apply new_loop_inv in E. destruct res as [identifier|].
  - destruct E as [k' [Hk' [Hid [Hbefore' [Hfree' Hw']]]]].
    assert (k' = k).
    { destruct (Nat.lt_trichotomy k' k) as [Hlt|[Heq|Hgt]]; [|exact Heq|].
      - rewrite Hid, (Hbefore k' Hlt) in Hfree'. discriminate.
      - rewrite (Hbefore' k Hgt) in Hfree. discriminate. }
    subst k' identifier w'. reflexivity.
  - destruct E as [Hall _]. rewrite (Hall k Hk) in Hfree. discriminate.
Qed.

(** What holds when [new] returns. *)
Lemma new_returned_inv (directory : option string) (language : string)
    (w : world) (r : result) (w' : world) :
  new directory language w = (r, w') ->
  ending_of r = Returned ->
  exists k,
    k < max_attempts /\
    r = mkResult
          [CreatedNewConceptFile
             (Join (resolve_directory directory language w) (candidate k w));
           ConceptID (candidate k w)] Returned /\
    ~ In (candidate k w)
         (map fst (glob w (resolve_directory directory language w))) /\
    fs w' (resolve_directory directory language w) =
      Directory (glob w (resolve_directory directory language w) ++
                 [(candidate k w, RegularFile (Text ""))]) /\
    (forall p, p <> resolve_directory directory language w ->
       fs w' p = fs w p) /\
    install_root w' = install_root w /\
    entropy w' = entropy w /\
    drawn w' = drawn w + 6 * S k.
Proof.
  intros Hnew Hend. unfold new in Hnew.
  set (target_dir := resolve_directory directory language w) in *.
  assert (Hloop : forall w0,
    glob w0 target_dir = glob w target_dir ->
    (forall p, p <> target_dir -> fs w0 p = fs w p) ->
    install_root w0 = install_root w -> entropy w0 = entropy w ->
    drawn w0 = drawn w ->
    match new_loop max_attempts target_dir w0 with
    | (Some identifier, w1) =>
        (mkResult [CreatedNewConceptFile (Join target_dir identifier);
                   ConceptID identifier] Returned, w1)
    | (None, w1) => (mkResult [CouldNotGenerate max_attempts] (Exited 1), w1)
    end = (r, w') ->
    exists k,
      k < max_attempts /\
      r = mkResult [CreatedNewConceptFile (Join target_dir (candidate k w));
                    ConceptID (candidate k w)] Returned /\
      ~ In (candidate k w) (map fst (glob w target_dir)) /\
      fs w' target_dir =
        Directory (glob w target_dir ++
                   [(candidate k w, RegularFile (Text ""))]) /\
      (forall p, p <> target_dir -> fs w' p = fs w p) /\
      install_root w' = install_root w /\
      entropy w' = entropy w /\
      drawn w' = drawn w + 6 * S k).
  { intros w0 Hglob Hother Hroot Htape Hdrawn H.
    destruct (new_loop max_attempts target_dir w0) as [[identifier|] w1] eqn:E;
      inversion H; subst r w1; clear H; [|discriminate Hend].
    apply new_loop_inv in E.
    destruct E as [k [Hk [Hid [_ [Hfree Hw']]]]].
    assert (Hcand : candidate k w0 = candidate k w).
    { unfold candidate. apply generate_tape_ext. intros i _.
      cbn [skip entropy drawn]. now rewrite Htape, Hdrawn. }
    rewrite Hcand in Hid. subst identifier w'. exists k.
    split; [exact Hk|]. split; [reflexivity|]. split; [|split; [|split]].
    - rewrite <- Hglob. now apply file_exists_false.
    - unfold touch. rewrite fs_set_fs_same, glob_skip, Hglob. reflexivity.
    - intros p Hp. unfold touch. rewrite fs_set_fs_other by exact Hp.
      now apply Hother.
    - cbn [touch set_fs skip install_root entropy drawn].
      now rewrite Hroot, Htape, Hdrawn. }
  unfold mkdir in Hnew. destruct (fs w target_dir) as [|entries|] eqn:Efs.
  - apply (Hloop (set_fs w target_dir (Directory []))); try reflexivity;
      [| |exact Hnew].
    + unfold glob. now rewrite fs_set_fs_same, Efs.
    + intros p Hp. now apply fs_set_fs_other.
  - apply (Hloop w); auto.
  - inversion Hnew; subst. discriminate Hend.
Qed.

(** ** Command [new]: which candidate, and how it ends *)



(** X5: in an existing directory, when the candidates before the [k]-th
    are names of entries and the [k]-th is not, [new] creates the file of
    the [k]-th candidate, having generated [k + 1] identifiers. *)
Theorem new_first_free (directory : option string) (language : string)
    (w : world) (entries : list dirent) (k : nat) :
  let target_dir := resolve_directory directory language w in
  fs w target_dir = Directory entries ->
  k < max_attempts ->
  (forall j, j < k -> In (candidate j w) (map fst entries)) ->
  ~ In (candidate k w) (map fst entries) ->
  new directory language w =
    (mkResult [CreatedNewConceptFile (Join target_dir (candidate k w));
               ConceptID (candidate k w)] Returned,
     touch (skip (6 * S k) w) target_dir (candidate k w)).
Proof.
  intros target_dir Hdir Hk Hbefore Hfree. unfold new. fold target_dir.
  unfold mkdir. rewrite Hdir.
  assert (Hglob : glob w target_dir = entries)
    by (unfold glob; now rewrite Hdir).
  rewrite (new_loop_first_free max_attempts k); [reflexivity|exact Hk| |].
  - intros j Hj. apply file_exists_In. rewrite Hglob. now apply Hbefore.
  - apply file_exists_false. now rewrite Hglob.
Qed.

Lemma new_first_free_witness :
  let w := counting_world [("000000", RegularFile (Text "asthma"))] in
  new (Some "terms") "en-GB" w =
    (mkResult [CreatedNewConceptFile (Join (PurePath "terms") (candidate 1 w));
               ConceptID (candidate 1 w)] Returned,
     touch (skip (6 * 2) w) (PurePath "terms") (candidate 1 w)).
Proof.
  intros w.
  apply (new_first_free (Some "terms") "en-GB" w
           [("000000", RegularFile (Text "asthma"))] 1).
  - reflexivity.
  - unfold max_attempts. lia.
  - intros j Hj. assert (j = 0) by lia. subst j. vm_compute. now left.
  - vm_compute. intros [H|[]]. discriminate H.
Defined.

(** X6: [new] ends with [exit], and then with status 1, exactly when the
    target is an existing directory and each of the 1000 candidates is
    the name of one of its entries. *)
Theorem new_exits_iff (directory : option string) (language : string)
    (w : world) :
  let target_dir := resolve_directory directory language w in
  (forall status, ending_of (fst (new directory language w)) = Exited status ->
                  status = 1) /\
  (ending_of (fst (new directory language w)) = Exited 1 <->
   exists entries,
     fs w target_dir = Directory entries /\
     forall k, k < max_attempts -> In (candidate k w) (map fst entries)).
Proof.
  intros target_dir. unfold new. fold target_dir. unfold mkdir.
  destruct (fs w target_dir) as [|entries|] eqn:Efs.
  - assert (Hglob : glob (set_fs w target_dir (Directory [])) target_dir = []).
    { unfold glob. now rewrite fs_set_fs_same. }
    rewrite (new_loop_first_free max_attempts 0).
    + cbn [fst ending_of]. split; [discriminate|]. split; [discriminate|].
      intros [entries [H _]]. discriminate H.
    + unfold max_attempts. lia.
    + intros j Hj. lia.
    + apply file_exists_false. rewrite Hglob. intros [].
  - assert (Hglob : glob w target_dir = entries)
      by (unfold glob; now rewrite Efs).
    destruct (new_loop max_attempts target_dir w) as [[identifier|] w1] eqn:E;
      apply new_loop_inv in E; cbn [fst ending_of].
    + split; [discriminate|]. split; [discriminate|].
      intros [entries' [Hd Hall]]. injection Hd as <-.
      destruct E as [k [Hk [Hid [_ [Hfree _]]]]].
      apply file_exists_false in Hfree. rewrite Hglob, Hid in Hfree.
      exfalso. now apply Hfree, Hall.
    + split; [intros status H; now injection H|].
      split; [intros _|reflexivity].
      exists entries. split; [reflexivity|]. intros k Hk.
      rewrite <- Hglob. apply file_exists_In. now apply E.
  - cbn [fst ending_of]. split; [discriminate|]. split; [discriminate|].
    intros [entries [H _]]. discriminate H.
Qed.


(** X8: the identifier [new] prints when it returns is six characters
    long, all of them symbols of the alphabet. *)
Theorem new_identifier_shape (directory : option string) (language : string)
    (w : world) (r : result) (w' : world) :
  new directory language w = (r, w') ->
  ending_of r = Returned ->
  exists identifier,
    echoed r =
      [CreatedNewConceptFile
         (Join (resolve_directory directory language w) identifier);
       ConceptID identifier] /\
    String.length identifier = 6 /\
    Forall (fun c => In c alphabet) (list_ascii_of_string identifier).
Proof.
  intros Hnew Hend.
  destruct (new_returned_inv _ _ _ _ _ Hnew Hend) as [k [_ [Hr _]]].
  exists (candidate k w). subst r. split; [reflexivity|].
  apply candidate_shape.
Qed.

Lemma new_identifier_shape_witness :
  let w := counting_world [("000000", RegularFile (Text "asthma"))] in
  exists identifier,
    echoed (fst (new None "en-GB" w)) =
      [CreatedNewConceptFile
         (Join (resolve_directory None "en-GB" w) identifier);
       ConceptID identifier] /\
    String.length identifier = 6 /\
    Forall (fun c => In c alphabet) (list_ascii_of_string identifier).
Proof.
  intros w.
  apply (new_identifier_shape None "en-GB" w
           (fst (new None "en-GB" w)) (snd (new None "en-GB" w))).
  - apply surjective_pairing.
  - vm_compute. reflexivity.
Defined.

Lemma resolve_directory_root (directory : option string) (language : string)
    (w w' : world) :
  install_root w' = install_root w ->
  resolve_directory directory language w' =
  resolve_directory directory language w.
Proof.
  intros H. unfold resolve_directory, get_terms_directory. now rewrite H.
Qed.

(** X9: two calls of [new] on the same directory, one after the other,
    print different identifiers when both return, and both files are in
    the directory afterwards. *)
Theorem new_twice_distinct (directory : option string) (language : string)
    (w w1 w2 : world) (r1 r2 : result) :
  new directory language w = (r1, w1) ->
  new directory language w1 = (r2, w2) ->
  ending_of r1 = Returned ->
  ending_of r2 = Returned ->
  let target_dir := resolve_directory directory language w in
  exists id1 id2,
    In (ConceptID id1) (echoed r1) /\
    In (ConceptID id2) (echoed r2) /\
    id1 <> id2 /\
    In (id1, RegularFile (Text "")) (glob w2 target_dir) /\
    In (id2, RegularFile (Text "")) (glob w2 target_dir).
Proof.
  intros Hnew1 Hnew2 Hend1 Hend2 target_dir.
  destruct (new_returned_inv _ _ _ _ _ Hnew1 Hend1)
    as [k1 [_ [Hr1 [_ [Hfs1 [_ [Hroot1 _]]]]]]].
  destruct (new_returned_inv _ _ _ _ _ Hnew2 Hend2)
    as [k2 [_ [Hr2 [Hfree2 [Hfs2 _]]]]].
  rewrite (resolve_directory_root directory language w w1 Hroot1)
    in Hfree2, Hfs2.
  fold target_dir in Hfs1, Hfree2, Hfs2.
  assert (Hglob1 : glob w1 target_dir =
                   glob w target_dir ++
                   [(candidate k1 w, RegularFile (Text ""))])
    by (unfold glob at 1; now rewrite Hfs1).
  exists (candidate k1 w), (candidate k2 w1). subst r1 r2.
  split; [right; now left|]. split; [right; now left|].
  split; [|split].
  - intros Heq. apply Hfree2. rewrite Hglob1, map_app, in_app_iff.
    right. left. cbn [fst]. exact Heq.
  - unfold glob at 1. rewrite Hfs2, Hglob1, !in_app_iff.
    left. right. now left.
  - unfold glob at 1. rewrite Hfs2, in_app_iff. right. now left.
Qed.

Lemma new_twice_distinct_witness :
  let w := counting_world [("000000", RegularFile (Text "asthma"))] in
  let w1 := snd (new (Some "terms") "en-GB" w) in
  let w2 := snd (new (Some "terms") "en-GB" w1) in
  exists id1 id2,
    In (ConceptID id1) (echoed (fst (new (Some "terms") "en-GB" w))) /\
    In (ConceptID id2) (echoed (fst (new (Some "terms") "en-GB" w1))) /\
    id1 <> id2 /\
    In (id1, RegularFile (Text "")) (glob w2 (PurePath "terms")) /\
    In (id2, RegularFile (Text "")) (glob w2 (PurePath "terms")).
Proof.
  intros w w1 w2.
  apply (new_twice_distinct (Some "terms") "en-GB" w w1 w2
           (fst (new (Some "terms") "en-GB" w))
           (fst (new (Some "terms") "en-GB" w1))).
  - apply surjective_pairing.
  - apply surjective_pairing.
  - vm_compute. reflexivity.
  - vm_compute. reflexivity.
Defined.

Lemma append_empty_r (s : string) : (s ++ "")%string = s.
Proof. induction s as [|c s IH]; simpl; congruence. Qed.

Lemma contains_refl (s : string) : contains s s = true.
Proof.
  apply contains_substring. exists "", "". cbn [append].
  now rewrite append_empty_r.
Qed.

(** X10: after [new] has returned, [search] for the identifier it
    printed, in any letter case, reports the new file by its filename. *)
Theorem new_then_search (directory : option string) (language : string)
    (w w' : world) (r : result) (identifier query : string) :
  new directory language w = (r, w') ->
  ending_of r = Returned ->
  In (ConceptID identifier) (echoed r) ->
  lower query = lower identifier ->
  In (FoundByFilename
        (Join (resolve_directory directory language w) identifier))
     (echoed (search query directory language w')).
Proof.
  intros Hnew Hend Hid Hq.
  destruct (new_returned_inv _ _ _ _ _ Hnew Hend)
    as [k [_ [Hr [_ [Hfs [_ [Hroot _]]]]]]].
  subst r. destruct Hid as [Hid|[Hid|[]]]; [discriminate Hid|].
  injection Hid as Hid.
  pose proof (search_echoed query directory language w'
                (FoundByFilename
                   (Join (resolve_directory directory language w) identifier)))
    as Hechoed.
  cbv zeta in Hechoed.
  rewrite (resolve_directory_root directory language w w' Hroot) in Hechoed.
  apply Hechoed; try discriminate.
  exists (identifier, RegularFile (Text "")). split.
  - unfold glob. rewrite Hfs, Hid. apply in_app_iff. right. now left.
  - unfold search_entry. rewrite Hq, contains_refl. now left.
Qed.

Lemma new_then_search_witness :
  let w := counting_world [("000000", RegularFile (Text "asthma"))] in
  In (FoundByFilename (Join (resolve_directory (Some "terms") "en-GB" w)
                            "AAAAAA"))
     (echoed (search "aaaaaa" (Some "terms") "en-GB"
                (snd (new (Some "terms") "en-GB" (skip 60 w))))).
Proof.
  intros w.
  apply (new_then_search (Some "terms") "en-GB" (skip 60 w)
           (snd (new (Some "terms") "en-GB" (skip 60 w)))
           (fst (new (Some "terms") "en-GB" (skip 60 w)))
           "AAAAAA" "aaaaaa").
  - apply surjective_pairing.
  - vm_compute. reflexivity.
  - vm_compute. right. left. reflexivity.
  - reflexivity.
Defined.

(** ** Command [search]: queries, messages and warnings *)

Lemma search_loop_query (q1 q2 : string) (search_dir : Path)
    (entries : list dirent) :
  lower q1 = lower q2 ->
  search_loop q1 search_dir entries = search_loop q2 search_dir entries.
Proof.
  intros H. induction entries as [|[nm n] rest IH]; [reflexivity|].
  cbn [search_loop]. rewrite IH. unfold search_entry. now rewrite H.
Qed.

(** X11: [search] looks at its query only through its lower-case form:
    two queries that differ in letter case only give the same output. *)
Theorem search_case_insensitive (q1 q2 : string) (directory : option string)
    (language : string) (w : world) :
  lower q1 = lower q2 ->
  search q1 directory language w = search q2 directory language w.
Proof.
  intros H. unfold search.
  now rewrite (search_loop_query q1 q2 _ _ H).
Qed.

Lemma search_case_insensitive_witness :
  search "DiaBETES" (Some "terms") "en-GB" (example_world kidney_corpus) =
  search "diabetes" (Some "terms") "en-GB" (example_world kidney_corpus).
Proof.
  apply (search_case_insensitive "DiaBETES" "diabetes" (Some "terms") "en-GB"
           (example_world kidney_corpus)).
  reflexivity.
Defined.

Lemma contains_empty (s : string) : contains "" s = true.
Proof. destruct s; reflexivity. Qed.

Lemma search_loop_empty_query (search_dir : Path) (entries : list dirent) :
  search_loop "" search_dir entries =
  (map (fun e => FoundByFilename (Join search_dir (fst e))) entries,
   match entries with [] => false | _ => true end).
Proof.
  induction entries as [|[nm n] rest IH]; [reflexivity|].
  cbn [search_loop]. rewrite IH. unfold search_entry. cbn [lower].
  rewrite contains_empty. reflexivity.
Qed.

(** X12: with the empty query every entry of an existing directory is
    reported by filename, in enumeration order, whatever its kind and
    without reading it; only an empty directory gives "No matches
    found." *)
Theorem search_empty_query (directory : option string) (language : string)
    (w : world) (entries : list dirent) :
  let search_dir := resolve_directory directory language w in
  fs w search_dir = Directory entries ->
  echoed (search "" directory language w) =
  match entries with
  | [] => [NoMatchesFound]
  | _ => map (fun e => FoundByFilename (Join search_dir (fst e))) entries
  end.
Proof.
  intros search_dir Hdir. unfold search, path_exists, glob. fold search_dir.
  rewrite Hdir. cbn [negb]. rewrite search_loop_empty_query.
  destruct entries; cbn [echoed]; [reflexivity | apply app_nil_r].
Qed.

Lemma search_empty_query_witness :
  echoed (search "" (Some "terms") "en-GB" (example_world kidney_corpus)) =
  map (fun e => FoundByFilename (Join (PurePath "terms") (fst e)))
      kidney_corpus.
Proof.
  apply (search_empty_query (Some "terms") "en-GB"
           (example_world kidney_corpus) kidney_corpus).
  reflexivity.
Defined.

Lemma search_loop_found (query : string) (search_dir : Path)
    (entries : list dirent) :
  snd (search_loop query search_dir entries) =
  existsb (fun e => snd (search_entry query search_dir e)) entries.
Proof.
  induction entries as [|e rest IH]; [reflexivity|].
  cbn [search_loop existsb].
  destruct (search_entry query search_dir e) as [out found].
  destruct (search_loop query search_dir rest) as [out' found'].
  simpl in *. now rewrite IH.
Qed.

Lemma search_entry_lines (query : string) (search_dir : Path) (e : dirent)
    (x : echo) :
  In x (fst (search_entry query search_dir e)) ->
  x <> NoMatchesFound /\ x <> DirectoryNotFound search_dir.
Proof.
  destruct e as [nm n]. unfold search_entry.
  destruct (contains (lower query) (lower nm)).
  - intros [<-|[]]. split; discriminate.
  - destruct n as [[content|err]| |]; cbn [fst]; try contradiction.
    + destruct (contains (lower query) (lower content)); cbn [fst];
        [|contradiction].
      intros [<-|[]]. split; discriminate.
    + intros [<-|[]]. split; discriminate.
Qed.

Lemma search_entry_found (query : string) (search_dir : Path) (nm : string)
    (n : node) :
  snd (search_entry query search_dir (nm, n)) = false <->
  contains (lower query) (lower nm) = false /\
  forall content, n = RegularFile (Text content) ->
                  contains (lower query) (lower content) = false.
Proof.
  unfold search_entry. destruct (contains (lower query) (lower nm)).
  - cbn [snd]. split; [discriminate | intros [H _]; discriminate H].
  - destruct n as [[content|err]| |]; cbn [snd].
    + destruct (contains (lower query) (lower content)) eqn:E; cbn [snd].
      * split; [discriminate|]. intros [_ H].
        specialize (H content eq_refl). congruence.
      * split; [|reflexivity]. intros _. split; [reflexivity|].
        intros c Hc. injection Hc as <-. exact E.
    + split; [|reflexivity]. intros _. split; [reflexivity|]. discriminate.
    + split; [|reflexivity]. intros _. split; [reflexivity|]. discriminate.
    + split; [|reflexivity]. intros _. split; [reflexivity|]. discriminate.
Qed.

(** X13: "No matches found." is printed exactly when the directory
    exists and no entry matches: no name contains the query, and no
    readable regular file has a content that does.  Warnings about
    unreadable files do not count as matches. *)
Theorem search_no_matches_iff (query : string) (directory : option string)
    (language : string) (w : world) :
  let search_dir := resolve_directory directory language w in
  In NoMatchesFound (echoed (search query directory language w)) <->
  path_exists w search_dir = true /\
  forall nm n, In (nm, n) (glob w search_dir) ->
    contains (lower query) (lower nm) = false /\
    forall content, n = RegularFile (Text content) ->
                    contains (lower query) (lower content) = false.
Proof.
  intros search_dir. unfold search. fold search_dir.
  destruct (path_exists w search_dir) eqn:Ex; cbn [negb].
  - pose proof (search_loop_out query search_dir (glob w search_dir)) as Hout.
    pose proof (search_loop_found query search_dir (glob w search_dir))
      as Hfound.
    destruct (search_loop query search_dir (glob w search_dir)) as [out found].
    cbn [fst snd echoed] in *. rewrite in_app_iff.
    assert (Hnot : ~ In NoMatchesFound out).
    { rewrite Hout, in_flat_map. intros [e [_ He]].
      now apply search_entry_lines in He. }
    split.
    + intros [H|H]; [contradiction|]. split; [reflexivity|].
      destruct found; [destruct H|]. intros nm n Hin.
      apply search_entry_found with (search_dir := search_dir).
      symmetry in Hfound.
      destruct (snd (search_entry query search_dir (nm, n))) eqn:E;
        [|reflexivity].
      assert (existsb (fun e => snd (search_entry query search_dir e))
                      (glob w search_dir) = true).
      { apply existsb_exists. now exists (nm, n). }
      congruence.
    + intros [_ H]. right. destruct found; [|now left].
      symmetry in Hfound. apply existsb_exists in Hfound.
      destruct Hfound as [[nm n] [Hin Hsnd]].
      apply H in Hin. apply (search_entry_found query search_dir) in Hin.
      congruence.
  - cbn [echoed]. split.
    + intros [H|[]]. discriminate H.
    + intros [H _]. discriminate H.
Qed.

(** X14: [search] always returns, and it prints a "Could not read" line
    for a path exactly when that entry is a regular file that cannot be
    read and whose name does not contain the query (a file reported by
    its name is never read). *)
Theorem search_warnings (query : string) (directory : option string)
    (language : string) (w : world) :
  let search_dir := resolve_directory directory language w in
  ending_of (search query directory language w) = Returned /\
  forall filepath err,
    In (CouldNotRead filepath err)
       (echoed (search query directory language w)) <->
    exists nm, In (nm, RegularFile (Unreadable err)) (glob w search_dir) /\
               filepath = Join search_dir nm /\
               contains (lower query) (lower nm) = false.
Proof.
  intros search_dir. split.
  - unfold search. destruct (negb _); [reflexivity|].
    now destruct (search_loop _ _ _).
  - intros filepath err.
    pose proof (search_echoed query directory language w
                  (CouldNotRead filepath err)) as Hechoed.
    cbv zeta in Hechoed. fold search_dir in Hechoed.
    rewrite Hechoed by discriminate. split.
    + intros [[nm n] [Hin Hx]]. unfold search_entry in Hx.
      destruct (contains (lower query) (lower nm)) eqn:E.
      * destruct Hx as [Hx|[]]. discriminate Hx.
      * destruct n as [[content|err']| |]; cbn [fst] in Hx;
          try contradiction.
        -- destruct (contains (lower query) (lower content)); cbn [fst] in Hx;
             [destruct Hx as [Hx|[]]; discriminate Hx | contradiction].
        -- destruct Hx as [Hx|[]]. injection Hx as <- <-.
           exists nm. auto.
    + intros [nm [Hin [-> Hname]]].
      exists (nm, RegularFile (Unreadable err)). split; [exact Hin|].
      unfold search_entry. rewrite Hname. now left.
Qed.

(** ** Scores: closed form and range *)

Section Scores.
Local Open Scope R_scope.

Lemma dot_nil_r (u : list R) : dot u [] = 0.
Proof. unfold dot. now destruct u. Qed.

Lemma dot_am_gm (a b : list R) : 2 * dot a b <= dot a a + dot b b.
Proof.
  revert b. induction a as [|x a IH]; intros [|y b].
  - rewrite !dot_nil_l. lra.
  - rewrite !dot_nil_l. pose proof (dot_self_nonneg (y :: b)). lra.
  - rewrite !dot_nil_r. pose proof (dot_self_nonneg (x :: a)). lra.
  - rewrite !dot_cons. specialize (IH b).
    pose proof (Rle_0_sqr (x - y)) as H. unfold Rsqr in H. lra.
Qed.

Lemma dot_nonneg (u v : list R) :
  Forall (fun x => 0 <= x) u -> Forall (fun x => 0 <= x) v -> 0 <= dot u v.
Proof.
  intros Hu. revert v. induction Hu as [|x u Hx _ IH]; intros v Hv.
  - rewrite dot_nil_l. lra.
  - destruct Hv as [|y v Hy Hv].
    + rewrite dot_nil_r. lra.
    + rewrite dot_cons. specialize (IH v Hv).
      pose proof (Rmult_le_pos x y Hx Hy). lra.
Qed.

Lemma norm_l2_nonneg (v : list R) : 0 <= norm_l2 v.
Proof. apply sqrt_pos. Qed.

Lemma normalize_nonneg (u : list R) :
  Forall (fun x => 0 <= x) u -> Forall (fun x => 0 <= x) (normalize u).
Proof.
  intros H. unfold normalize. destruct (Req_dec_T (norm_l2 u) 0) as [_|Hn];
    [exact H|].
  pose proof (norm_l2_nonneg u) as Hpos.
  apply Forall_map. apply Forall_impl with (2 := H). intros x Hx.
  unfold Rdiv. apply Rmult_le_pos; [exact Hx|].
  apply Rlt_le, Rinv_0_lt_compat. lra.
Qed.

Lemma dot_normalize_self (u : list R) :
  dot (normalize u) (normalize u) = 0 \/ dot (normalize u) (normalize u) = 1.
Proof.
  destruct (Req_dec_T (norm_l2 u) 0) as [Hz|Hn].
  - left. rewrite (normalize_zero u Hz). apply all_zero_dot.
    now apply norm_l2_zero.
  - right. rewrite (normalize_nonzero u Hn), <- norm_l2_sqr.
    unfold l2_normalize_spec. rewrite (norm_l2_unit u Hn). ring.
Qed.

Lemma document_frequency_spec_le (term : string) (docs : list string) :
  (document_frequency_spec term docs <= List.length docs)%nat.
Proof.
  unfold document_frequency_spec. induction docs as [|d docs IH]; simpl;
    [lia|].
  destruct (in_dec string_dec term (analyze d)); simpl; lia.
Qed.

Lemma idf_spec_ge_1 (docs : list string) (term : string) :
  1 <= idf_spec docs term.
Proof.
  unfold idf_spec.
  pose proof (le_INR _ _ (document_frequency_spec_le term docs)) as Hle.
  pose proof (pos_INR (document_frequency_spec term docs)) as Hdf.
  set (n := INR (List.length docs)) in *.
  set (df := INR (document_frequency_spec term docs)) in *.
  assert (Hq : 1 <= (1 + n) / (1 + df)).
  { apply (Rmult_le_reg_r (1 + df)); [lra|].
    unfold Rdiv. rewrite Rmult_assoc, Rinv_l by lra. lra. }
  assert (0 <= ln ((1 + n) / (1 + df))); [|lra].
  destruct Hq as [Hlt|<-].
  - rewrite <- ln_1. apply Rlt_le, ln_increasing; lra.
  - rewrite ln_1. lra.
Qed.

Lemma tfidf_spec_nonneg (docs : list string) (doc : string) :
  Forall (fun x => 0 <= x) (tfidf_spec docs doc).
Proof.
  unfold tfidf_spec. apply Forall_map, Forall_forall. intros term _.
  apply Rmult_le_pos; [apply pos_INR|].
  pose proof (idf_spec_ge_1 docs term). lra.
Qed.

Lemma score_spec_dot (query : string) (texts : list string) (doc : string) :
  score_spec query texts doc =
  dot (normalize (tfidf_spec (query :: texts) query))
      (normalize (tfidf_spec (query :: texts) doc)).
Proof.
  unfold score_spec. cbn [hd].
  now rewrite <- cosine_of_normalized, !normalize_idempotent.
Qed.

Lemma score_spec_range (query : string) (texts : list string) (doc : string) :
  0 <= score_spec query texts doc <= 1.
Proof.
  rewrite score_spec_dot. split.
  - apply dot_nonneg; apply normalize_nonneg, tfidf_spec_nonneg.
  - pose proof (dot_am_gm (normalize (tfidf_spec (query :: texts) query))
                          (normalize (tfidf_spec (query :: texts) doc))) as H.
    destruct (dot_normalize_self (tfidf_spec (query :: texts) query))
      as [Hu|Hu];
      destruct (dot_normalize_self (tfidf_spec (query :: texts) doc))
      as [Hv|Hv]; lra.
Qed.

(** The cosine similarity does not change when both vectors are
    L2-normalized first. *)
Lemma cosine_spec_normalized (u v : list R) :
  cosine_spec (l2_normalize_spec u) (l2_normalize_spec v) = cosine_spec u v.
Proof.
  rewrite <- cosine_of_normalized, !normalize_idempotent. unfold cosine_spec.
  destruct (Req_dec_T (norm_l2 u) 0) as [Hu|Hu].
  - rewrite Hu, Rmult_0_l, (normalize_zero u Hu).
    rewrite (all_zero_dot u _ (proj1 (norm_l2_zero u) Hu)).
    now destruct (Req_dec_T 0 0).
  - destruct (Req_dec_T (norm_l2 v) 0) as [Hv|Hv].
    + rewrite Hv, Rmult_0_r, (normalize_zero v Hv), dot_comm.
      rewrite (all_zero_dot v _ (proj1 (norm_l2_zero v) Hv)).
      now destruct (Req_dec_T 0 0).
    + rewrite (normalize_nonzero u Hu), (normalize_nonzero v Hv).
      unfold l2_normalize_spec, Rdiv at 1 2. rewrite dot_scale.
      destruct (Req_dec_T (norm_l2 u * norm_l2 v) 0) as [H0|_].
      * apply Rmult_integral in H0. tauto.
      * field. split; assumption.
Qed.

Lemma score_spec_cosine (query : string) (texts : list string) (doc : string) :
  score_spec query texts doc =
  cosine_spec (tfidf_spec (query :: texts) query)
              (tfidf_spec (query :: texts) doc).
Proof. unfold score_spec. cbn [hd]. apply cosine_spec_normalized. Qed.

End Scores.

Lemma candidates_cases (query : string) (directory : option string)
    (language : string) (w : world) :
  candidates query directory language w = [] \/
  candidates query directory language w =
    combine (fst (corpus directory language w))
            (map (score_spec query (snd (corpus directory language w)))
                 (snd (corpus directory language w))).
Proof.
  unfold candidates.
  destruct (corpus directory language w) as [filepaths texts]. cbn [fst snd].
  destruct texts as [|t texts]; [now left|].
  destruct (fit (query :: t :: texts)) as [e|vectorizer] eqn:E; [now left|].
  right. f_equal. now apply similarity_scores_fitted.
Qed.

Lemma candidates_range (query : string) (directory : option string)
    (language : string) (w : world) (x : Path * R) :
  In x (candidates query directory language w) -> (0 <= snd x <= 1)%R.
Proof.
  destruct (candidates_cases query directory language w) as [H|H]; rewrite H.
  - intros [].
  - destruct x as [p s]. intros Hin. apply in_combine_r in Hin.
    apply in_map_iff in Hin. destruct Hin as [doc [<- _]].
    apply score_spec_range.
Qed.

Lemma scored_lines_from_candidates (query : string)
    (directory : option string) (language : string) (threshold : R)
    (w : world) (y : R * string) :
  In y (scored_lines (echoed (similar query directory language threshold w)))
  <->
  exists x, In x (candidates query directory language w) /\
            (threshold <= snd x)%R /\ y = shown_as x.
Proof.
  rewrite similar_scored_lines, scored_lines_display, in_map_iff.
  split.
  - intros [x [<- Hin]]. apply filter_In in Hin. destruct Hin as [Hin Hr].
    exists x. split; [|split; [now apply Rleb_true | reflexivity]].
    now apply (Permutation_in _ (sorted_reverse_perm snd Rltb _)).
  - intros [x [Hin [Hr ->]]]. exists x. split; [reflexivity|].
    apply filter_In. split; [|now apply Rleb_true].
    now apply (Permutation_in _ (Permutation_sym (sorted_reverse_perm _ _ _))).
Qed.


(** ** Command [similar]: its four ways through *)

Lemma nodup_nil {T : Type} (dec : forall x y : T, {x = y} + {x <> y})
    (l : list T) : nodup dec l = [] <-> l = [].
Proof.
  split; [|intros ->; reflexivity].
  destruct l as [|x l]; [reflexivity|]. intros H.
  assert (Hin : In x (nodup dec (x :: l))) by (apply nodup_In; now left).
  rewrite H in Hin. destruct Hin.
Qed.

Lemma vocabulary_nil (docs : list string) :
  vocabulary docs = [] <-> Forall (fun d => analyze d = []) docs.
Proof.
  unfold vocabulary. rewrite nodup_nil.
  induction docs as [|d docs IH]; cbn [map List.concat].
  - split; [constructor | reflexivity].
  - split.
    + intros H. apply app_eq_nil in H. destruct H as [Hd Hrest].
      constructor; [exact Hd | now apply IH].
    + intros H. inversion H as [|? ? Hd Hrest]; subst.
      rewrite Hd. cbn [app]. now apply IH.
Qed.

Lemma read_concept_files_out (search_dir : Path) (entries : list dirent)
    (x : echo) :
  In x (snd (read_concept_files search_dir entries)) <->
  exists nm e, In (nm, RegularFile (Unreadable e)) entries /\
               x = CouldNotRead (Join search_dir nm) e.
Proof.
  induction entries as [|[nm n] rest IH].
  - split; [intros [] | intros [nm [e [[] _]]]].
  - cbn [read_concept_files].
    destruct (read_concept_files search_dir rest) as [[filepaths texts] out].
    cbn [snd] in IH.
    destruct n as [[content|e]| |]; cbn [snd].
    + rewrite IH. split; intros [nm' [e [H Hx]]]; exists nm', e.
      * split; [now right | exact Hx].
      * destruct H as [H|H]; [discriminate H | auto].
    + cbn [In]. rewrite IH. split.
      * intros [<-|[nm' [e' [H Hx]]]].
        -- exists nm, e. split; [now left | reflexivity].
        -- exists nm', e'. split; [now right | exact Hx].
      * intros [nm' [e' [[H|H] Hx]]].
        -- injection H as <- <-. now left.
        -- right. now exists nm', e'.
    + rewrite IH. split; intros [nm' [e [H Hx]]]; exists nm', e.
      * split; [now right | exact Hx].
      * destruct H as [H|H]; [discriminate H | auto].
    + rewrite IH. split; intros [nm' [e [H Hx]]]; exists nm', e.
      * split; [now right | exact Hx].
      * destruct H as [H|H]; [discriminate H | auto].
Qed.

(** The files that are read, with their texts, as one list. *)
Lemma read_concept_files_corpus (search_dir : Path) (entries : list dirent) :
  combine (fst (fst (read_concept_files search_dir entries)))
          (snd (fst (read_concept_files search_dir entries))) =
  flat_map (fun e => match snd e with
                     | RegularFile (Text content) =>
                         [(Join search_dir (fst e), strip content)]
                     | _ => []
                     end) entries.
Proof.
  induction entries as [|[nm n] rest IH]; [reflexivity|].
  cbn [read_concept_files flat_map].
  destruct (read_concept_files search_dir rest) as [[filepaths texts] out].
  cbn [fst snd] in *.
  destruct n as [[content|e]| |]; cbn [fst snd combine app]; now rewrite IH.
Qed.

Lemma read_concept_files_paths (search_dir : Path) (entries : list dirent)
    (p : Path) :
  In p (fst (fst (read_concept_files search_dir entries))) ->
  exists nm content, In (nm, RegularFile (Text content)) entries /\
                     p = Join search_dir nm.
Proof.
  induction entries as [|[nm n] rest IH]; [intros []|].
  cbn [read_concept_files].
  destruct (read_concept_files search_dir rest) as [[filepaths texts] out].
  cbn [fst snd] in *.
  assert (Hrest : In p filepaths ->
            exists nm' content, In (nm', RegularFile (Text content))
                                   ((nm, n) :: rest) /\ p = Join search_dir nm').
  { intros H. destruct (IH H) as [nm' [c [Hin Hp]]].
    exists nm', c. split; [now right | exact Hp]. }
  destruct n as [[content|e]| |]; cbn [fst]; try exact Hrest.
  intros [<-|H]; [|now apply Hrest].
  exists nm, content. split; [now left | reflexivity].
Qed.

Lemma read_concept_files_texts_nil (search_dir : Path)
    (entries : list dirent) :
  snd (fst (read_concept_files search_dir entries)) = [] <->
  forall nm content, ~ In (nm, RegularFile (Text content)) entries.
Proof.
  induction entries as [|[nm n] rest IH].
  - split; [intros _ nm c [] | reflexivity].
  - cbn [read_concept_files].
    destruct (read_concept_files search_dir rest) as [[filepaths texts] out].
    cbn [fst snd] in *.
    assert (Hskip : (forall data, n <> RegularFile (Text data)) ->
              (texts = [] <->
               forall nm' content,
                 ~ In (nm', RegularFile (Text content)) ((nm, n) :: rest))).
    { intros Hn. rewrite IH. split; intros H nm' c.
      - intros [Heq|Hin]; [injection Heq as _ Heq; now apply (Hn c)|].
        now apply (H nm' c).
      - intros Hin. apply (H nm' c). now right. }
    destruct n as [[content|e]| |]; cbn [fst snd];
      try (apply Hskip; intros data; discriminate).
    split; [discriminate|]. intros H. exfalso. apply (H nm content). now left.
Qed.

Lemma similar_cases (query : string) (directory : option string)
    (language : string) (threshold : R) (w : world) :
  let search_dir := resolve_directory directory language w in
  let texts := snd (corpus directory language w) in
  let out := snd (read_concept_files search_dir (glob w search_dir)) in
  let r := similar query directory language threshold w in
  (path_exists w search_dir = false /\ texts = [] /\
   r = mkResult [DirectoryNotFound search_dir] Returned) \/
  (path_exists w search_dir = true /\ texts = [] /\
   r = mkResult (out ++ [NoReadableFilesFound]) Returned) \/
  (path_exists w search_dir = true /\ texts <> [] /\
   vocabulary (query :: texts) = [] /\
   r = mkResult out (Raised empty_vocabulary_error)) \/
  (path_exists w search_dir = true /\ texts <> [] /\
   vocabulary (query :: texts) <> [] /\
   r = mkResult (out ++ display threshold
                          (candidates query directory language w))
                Returned).
Proof.
  intros search_dir texts out r.
  destruct (path_exists w search_dir) eqn:Ex.
  - right. destruct texts as [|t ts] eqn:Et.
    + left. split; [reflexivity|]. split; [reflexivity|].
      subst r out texts. unfold similar, corpus in *. fold search_dir in Et |- *.
      rewrite Ex. cbn [negb].
      destruct (read_concept_files search_dir (glob w search_dir))
        as [[filepaths texts] out]. cbn [fst snd] in *. now subst texts.
    + right.
      assert (Htexts : texts <> []) by (rewrite Et; discriminate).
      pose proof (similar_unfold query directory language threshold w Htexts)
        as Hsim.
      pose proof (candidates_unfold query directory language w Htexts)
        as Hcand.
      cbv zeta in Hsim, Hcand. fold search_dir texts out r in Hsim, Hcand.
      rewrite <- Et.
      destruct (vocabulary (query :: texts)) as [|term terms] eqn:Ev.
      * left. split; [reflexivity|]. split; [exact Htexts|].
        split; [reflexivity|].
        rewrite Hsim, (fit_raises _ Ev). reflexivity.
      * right. split; [reflexivity|]. split; [exact Htexts|].
        split; [discriminate|].
        assert (Hv : vocabulary (query :: texts) <> [])
          by (rewrite Ev; discriminate).
        rewrite Hsim, Hcand, (fit_fitted _ Hv). reflexivity.
  - left. split; [reflexivity|].
    assert (Hg : glob w search_dir = []).
    { unfold glob. unfold path_exists in Ex.
      destruct (fs w search_dir); congruence. }
    split.
    + subst texts. unfold corpus. fold search_dir. now rewrite Hg.
    + subst r. unfold similar. fold search_dir. now rewrite Ex.
Qed.

Lemma display_In (threshold : R) (pairs : list (Path * R)) (x : echo) :
  In x (display threshold pairs) <->
  (exists p, In p pairs /\ (threshold <= snd p)%R /\
             x = Scored (snd p) (name (fst p))) \/
  (x = NoSimilarConceptsFound /\
   forall p, In p pairs -> (snd p < threshold)%R).
Proof.
  unfold display. rewrite display_loop_filter, in_app_iff, in_map_iff.
  set (ranked := sorted_reverse snd Rltb pairs).
  assert (Hperm : forall p, In p ranked <-> In p pairs).
  { intros p. split; apply Permutation_in;
      [|apply Permutation_sym]; apply sorted_reverse_perm. }
  assert (Hex : existsb (reaches threshold) ranked = false <->
                forall p, In p pairs -> (snd p < threshold)%R).
  { split.
    - intros H p Hp. apply Hperm in Hp.
      destruct (Rle_lt_dec threshold (snd p)) as [Hle|Hlt]; [|exact Hlt].
      assert (existsb (reaches threshold) ranked = true).
      { apply existsb_exists. exists p. split; [exact Hp|].
        now apply Rleb_true. }
      congruence.
    - intros H. destruct (existsb (reaches threshold) ranked) eqn:E;
        [|reflexivity].
      apply existsb_exists in E. destruct E as [p [Hp Hr]].
      apply Hperm, H in Hp. apply Rleb_true in Hr. lra. }
  split.
  - intros [[p [<- Hin]]|H].
    + left. apply filter_In in Hin. destruct Hin as [Hin Hr].
      exists p. split; [now apply Hperm|].
      split; [now apply Rleb_true | reflexivity].
    + right. destruct (existsb (reaches threshold) ranked) eqn:E;
        [destruct H|].
      destruct H as [<-|[]]. split; [reflexivity | now apply Hex].
  - intros [[p [Hin [Hr ->]]]|[-> H]].
    + left. exists p. split; [reflexivity|]. apply filter_In.
      split; [now apply Hperm | now apply Rleb_true].
    + right. apply Hex in H. rewrite H. now left.
Qed.

(** ** Command [similar]: endings, messages and warnings *)

(** X22: [similar] never calls [exit]; an exception leaves it exactly
    when some file could be read and neither the query nor any text read
    has a token; it is then the [ValueError] of the fit, after the
    warnings of the read loop only. *)
Theorem similar_raises_iff (query : string) (directory : option string)
    (language : string) (threshold : R) (w : world) :
  let search_dir := resolve_directory directory language w in
  let texts := snd (corpus directory language w) in
  let r := similar query directory language threshold w in
  (forall status, ending_of r <> Exited status) /\
  ((exists e, ending_of r = Raised e) <->
   texts <> [] /\ analyze query = [] /\
   Forall (fun text => analyze text = []) texts) /\
  (forall e, ending_of r = Raised e ->
     e = empty_vocabulary_error /\
     echoed r = snd (read_concept_files search_dir (glob w search_dir))).
Proof.
  intros search_dir texts r.
  assert (Hvoc : vocabulary (query :: texts) = [] <->
                 analyze query = [] /\
                 Forall (fun text => analyze text = []) texts).
  { rewrite vocabulary_nil. split.
    - intros H. inversion H; subst. auto.
    - intros [Hq Ht]. now constructor. }
  destruct (similar_cases query directory language threshold w)
    as [[_ [Ht Hr]]|[[_ [Ht Hr]]|[[_ [Ht [Hv Hr]]]|[_ [Ht [Hv Hr]]]]]];
    fold search_dir texts r in Ht, Hr; try fold texts in Hv;
    rewrite Hr; cbn [ending_of echoed].
  - split; [discriminate|]. split; [|discriminate].
    split; [intros [e H]; discriminate H | intros [H _]; contradiction].
  - split; [discriminate|]. split; [|discriminate].
    split; [intros [e H]; discriminate H | intros [H _]; contradiction].
  - split; [discriminate|]. split.
    + split; [intros _|intros _; now exists empty_vocabulary_error].
      split; [exact Ht | now apply Hvoc].
    + intros e He. injection He as <-. split; reflexivity.
  - split; [discriminate|]. split; [|discriminate].
    split; [intros [e H]; discriminate H|].
    intros [_ H]. apply Hvoc in H. contradiction.
Qed.

(** X23: [similar] prints a "Could not read" line for a path exactly
    when that entry is a regular file that cannot be read, whatever else
    happens afterwards. *)
Theorem similar_warnings (query : string) (directory : option string)
    (language : string) (threshold : R) (w : world) (filepath : Path)
    (err : string) :
  let search_dir := resolve_directory directory language w in
  In (CouldNotRead filepath err)
     (echoed (similar query directory language threshold w)) <->
  exists nm, In (nm, RegularFile (Unreadable err)) (glob w search_dir) /\
             filepath = Join search_dir nm.
Proof.
  intros search_dir.
  assert (Hout : In (CouldNotRead filepath err)
                    (snd (read_concept_files search_dir (glob w search_dir)))
                 <-> exists nm,
                       In (nm, RegularFile (Unreadable err))
                          (glob w search_dir) /\
                       filepath = Join search_dir nm).
  { rewrite read_concept_files_out. split.
    - intros [nm [e [Hin Hx]]]. injection Hx as -> ->. now exists nm.
    - intros [nm [Hin ->]]. now exists nm, err. }
  destruct (similar_cases query directory language threshold w)
    as [[Hex [_ Hr]]|[[Hex [_ Hr]]|[[Hex [_ [_ Hr]]]|[Hex [_ [_ Hr]]]]]];
    fold search_dir in Hex, Hr; rewrite Hr; cbn [echoed].
  - rewrite <- Hout.
    assert (Hg : glob w search_dir = []).
    { unfold glob. unfold path_exists in Hex.
      destruct (fs w search_dir); congruence. }
    rewrite Hg. cbn. split; [intros [H|[]]; discriminate H | intros []].
  - rewrite in_app_iff, Hout. split; [|auto].
    intros [H|[H|[]]]; [exact H | discriminate H].
  - exact Hout.
  - rewrite in_app_iff, Hout. split; [|auto].
    intros [H|H]; [exact H|]. apply display_In in H.
    destruct H as [[p [_ [_ H]]]|[H _]]; discriminate H.
Qed.

(** X24: every score line [similar] prints bears the name of an entry
    that is a readable regular file: never a subdirectory, never a file
    that could not be read. *)
Theorem similar_lists_readable_files (query : string)
    (directory : option string) (language : string) (threshold : R)
    (w : world) :
  let search_dir := resolve_directory directory language w in
  Forall (fun line =>
            exists content,
              In (snd line, RegularFile (Text content)) (glob w search_dir))
         (scored_lines (echoed (similar query directory language threshold w))).
Proof.
  intros search_dir. apply Forall_forall. intros y Hy.
  apply scored_lines_from_candidates in Hy.
  destruct Hy as [[p s] [Hin [_ ->]]]. cbn [shown_as fst snd].
  assert (Hp : In p (fst (corpus directory language w))).
  { destruct (candidates_cases query directory language w) as [H|H];
      rewrite H in Hin; [destruct Hin|].
    now apply in_combine_l in Hin. }
  unfold corpus in Hp. fold search_dir in Hp.
  apply read_concept_files_paths in Hp.
  destruct Hp as [nm [content [Hentry ->]]]. now exists content.
Qed.

(** X25: "No readable files found." is printed exactly when the
    directory exists and none of its entries is a readable regular file. *)
Theorem similar_no_readable_files_iff (query : string)
    (directory : option string) (language : string) (threshold : R)
    (w : world) :
  let search_dir := resolve_directory directory language w in
  In NoReadableFilesFound
     (echoed (similar query directory language threshold w)) <->
  path_exists w search_dir = true /\
  forall nm content,
    ~ In (nm, RegularFile (Text content)) (glob w search_dir).
Proof.
  intros search_dir.
  pose proof (read_concept_files_texts_nil search_dir (glob w search_dir))
    as Hnil.
  pose proof (read_concept_files_out search_dir (glob w search_dir)
                NoReadableFilesFound) as Hout.
  assert (Hnot : ~ In NoReadableFilesFound
                      (snd (read_concept_files search_dir (glob w search_dir)))).
  { rewrite Hout. intros [nm [e [_ H]]]. discriminate H. }
  destruct (similar_cases query directory language threshold w)
    as [[Hex [Ht Hr]]|[[Hex [Ht Hr]]|[[Hex [Ht [_ Hr]]]|[Hex [Ht [_ Hr]]]]]];
    unfold corpus in Ht; fold search_dir in Hex, Ht, Hr; rewrite Hr;
    cbn [echoed].
  - rewrite Hex. cbn. split; [intros [H|[]]; discriminate H|].
    intros [H _]; discriminate H.
  - rewrite in_app_iff. split; [|intros _; right; now left].
    intros _. split; [exact Hex | now apply Hnil].
  - split; [contradiction|]. intros [_ H]. apply Hnil in H. contradiction.
  - rewrite in_app_iff. split.
    + intros [H|H]; [contradiction|]. apply display_In in H.
      destruct H as [[p [_ [_ H]]]|[H _]]; discriminate H.
    + intros [_ H]. apply Hnil in H. contradiction.
Qed.

(** X26: "No similar concepts found above the threshold." is printed
    exactly when the fit went through and every score is below the
    threshold. *)
Theorem similar_none_above_iff (query : string) (directory : option string)
    (language : string) (threshold : R) (w : world) :
  let texts := snd (corpus directory language w) in
  In NoSimilarConceptsFound
     (echoed (similar query directory language threshold w)) <->
  texts <> [] /\ vocabulary (query :: texts) <> [] /\
  forall x, In x (candidates query directory language w) ->
            (snd x < threshold)%R.
Proof.
  intros texts.
  pose proof (read_concept_files_out
                (resolve_directory directory language w)
                (glob w (resolve_directory directory language w))
                NoSimilarConceptsFound) as Hout.
  assert (Hnot : ~ In NoSimilarConceptsFound
                      (snd (read_concept_files
                              (resolve_directory directory language w)
                              (glob w (resolve_directory directory language w))))).
  { rewrite Hout. intros [nm [e [_ H]]]. discriminate H. }
  destruct (similar_cases query directory language threshold w)
    as [[_ [Ht Hr]]|[[_ [Ht Hr]]|[[_ [Ht [Hv Hr]]]|[_ [Ht [Hv Hr]]]]]];
    fold texts in Ht; try fold texts in Hv; rewrite Hr; cbn [echoed].
  - cbn. split; [intros [H|[]]; discriminate H | intros [H _]; contradiction].
  - rewrite in_app_iff. split; [|intros [H _]; contradiction].
    intros [H|[H|[]]]; [contradiction | discriminate H].
  - split; [contradiction | intros [_ [H _]]; contradiction].
  - rewrite in_app_iff, display_In. split.
    + intros [H|[[p [_ [_ H]]]|[_ H]]]; [contradiction | discriminate H|].
      auto.
    + intros [_ [_ H]]. right. right. auto.
Qed.

(** ** Scores of particular documents *)

Lemma fit_analyzed (docs1 docs2 : list string) :
  map analyze docs1 = map analyze docs2 -> fit docs1 = fit docs2.
Proof.
  intros H. unfold fit, vocabulary. rewrite H.
  replace (List.length docs1) with (List.length docs2);
    [reflexivity|].
  now rewrite <- (length_map analyze docs1), H, length_map.
Qed.

Lemma transform_row_analyzed (v : TfidfVectorizer) (d1 d2 : string) :
  analyze d1 = analyze d2 -> transform_row v d1 = transform_row v d2.
Proof. intros H. unfold transform_row. now rewrite H. Qed.

(** X16: [similar] looks at its query only through its tokens: two
    queries with the same tokens (they may differ in letter case,
    punctuation and spacing) give the same output. *)
Theorem similar_query_tokens (q1 q2 : string) (directory : option string)
    (language : string) (threshold : R) (w : world) :
  analyze q1 = analyze q2 ->
  similar q1 directory language threshold w =
  similar q2 directory language threshold w.
Proof.
  intros H. unfold similar. destruct (negb _); [reflexivity|].
  destruct (read_concept_files _ _) as [[filepaths texts] out].
  destruct texts as [|t texts]; [reflexivity|].
  rewrite (fit_analyzed (q1 :: t :: texts) (q2 :: t :: texts))
    by (cbn [map]; now rewrite H).
  destruct (fit (q2 :: t :: texts)) as [e|vectorizer]; [reflexivity|].
  unfold transform. cbn [map firstn skipn].
  now rewrite (transform_row_analyzed vectorizer q1 q2 H).
Qed.

Lemma similar_query_tokens_witness :
  similar "Kidney  DISEASE!" (Some "terms") "en-GB" 0.1%R
          (example_world kidney_corpus) =
  similar "kidney disease" (Some "terms") "en-GB" 0.1%R
          (example_world kidney_corpus).
Proof.
  apply (similar_query_tokens "Kidney  DISEASE!" "kidney disease"
           (Some "terms") "en-GB" 0.1%R (example_world kidney_corpus)).
  reflexivity.
Defined.

Lemma vocabulary_In (docs : list string) (term : string) :
  In term (vocabulary docs) <-> exists d, In d docs /\ In term (analyze d).
Proof.
  unfold vocabulary. rewrite nodup_In, in_concat. split.
  - intros [l [Hl Hterm]]. apply in_map_iff in Hl.
    destruct Hl as [d [<- Hd]]. now exists d.
  - intros [d [Hd Hterm]]. exists (analyze d). split; [|exact Hterm].
    now apply in_map.
Qed.





(** X18: a file none of whose tokens is a token of the query is scored
    0. *)
Theorem similar_no_shared_token_score_zero (query : string)
    (texts : list string) (vectorizer : TfidfVectorizer) (i : nat)
    (doc : string) :
  fit (query :: texts) = inr vectorizer ->
  nth_error texts i = Some doc ->
  (forall term, In term (analyze query) -> ~ In term (analyze doc)) ->
  nth_error (similarity_scores vectorizer query texts) i = Some 0%R.
Proof.
  intros Hfit Hdoc Hdisjoint.
  rewrite (similarity_scores_fitted query texts vectorizer Hfit).
  rewrite (map_nth_error _ _ _ Hdoc). f_equal.
  now apply score_spec_no_shared_term.
Qed.

Lemma similar_no_shared_token_score_zero_witness :
  nth_error
    (similarity_scores
       (fitted ["kidney disease"; "acute kidney injury";
                "type 2 diabetes mellitus"])
       "kidney disease"
       ["acute kidney injury"; "type 2 diabetes mellitus"]) 1 = Some 0%R.
Proof.
  apply (similar_no_shared_token_score_zero "kidney disease"
           ["acute kidney injury"; "type 2 diabetes mellitus"]
           (fitted ["kidney disease"; "acute kidney injury";
                    "type 2 diabetes mellitus"]) 1 "type 2 diabetes mellitus").
  - apply fit_fitted. vm_compute. discriminate.
  - reflexivity.
  - vm_compute. intros term [<-|[<-|[]]] H;
      repeat (destruct H as [H|H]; [discriminate H|]); exact H.
Defined.

(** ** The threshold *)

Lemma filter_filter_implied {T : Type} (p q : T -> bool) (l : list T) :
  (forall x, p x = true -> q x = true) ->
  filter p (filter q l) = filter p l.
Proof.
  intros H. induction l as [|x l IH]; [reflexivity|].
  cbn [filter]. destruct (q x) eqn:Eq; cbn [filter].
  - now rewrite IH.
  - destruct (p x) eqn:Ep; [|exact IH].
    apply H in Ep. congruence.
Qed.

Lemma filter_all {T : Type} (p : T -> bool) (l : list T) :
  (forall x, In x l -> p x = true) -> filter p l = l.
Proof.
  induction l as [|x l IH]; intros H; [reflexivity|].
  cbn [filter]. rewrite (H x (or_introl eq_refl)). f_equal.
  apply IH. intros y Hy. apply H. now right.
Qed.


(** X20: raising the threshold only removes score lines: the lines at
    the higher threshold are those at the lower one whose score reaches
    the higher, in the same order. *)
Theorem similar_threshold_monotone (query : string)
    (directory : option string) (language : string) (t1 t2 : R) (w : world) :
  (t1 <= t2)%R ->
  scored_lines (echoed (similar query directory language t2 w)) =
  filter (fun line => Rleb t2 (fst line))
         (scored_lines (echoed (similar query directory language t1 w))).
Proof.
  intros Hle. rewrite !similar_scored_lines, !scored_lines_display.
  rewrite filter_map_swap. f_equal.
  change (fun a : Path * R => Rleb t2 (fst (shown_as a))) with (reaches t2).
  symmetry. apply filter_filter_implied.
  intros x. unfold reaches. rewrite !Rleb_true. lra.
Qed.

Lemma similar_threshold_monotone_witness :
  scored_lines (echoed (similar "kidney disease" (Some "terms") "en-GB" 0.5%R
                                (example_world kidney_corpus))) =
  filter (fun line => Rleb 0.5%R (fst line))
         (scored_lines
            (echoed (similar "kidney disease" (Some "terms") "en-GB" 0.1%R
                             (example_world kidney_corpus)))).
Proof.
  apply (similar_threshold_monotone "kidney disease" (Some "terms") "en-GB"
           0.1%R 0.5%R (example_world kidney_corpus)).
  lra.
Defined.

(** X21: with a threshold of 0 or less every file that was scored gets
    its line, in ranking order. *)
Theorem similar_threshold_nonpositive (query : string)
    (directory : option string) (language : string) (threshold : R)
    (w : world) :
  (threshold <= 0)%R ->
  scored_lines (echoed (similar query directory language threshold w)) =
  map shown_as
      (sorted_reverse snd Rltb (candidates query directory language w)).
Proof.
  intros Hle. rewrite similar_scored_lines, scored_lines_display. f_equal.
  apply filter_all. intros x Hx.
  apply (Permutation_in _ (sorted_reverse_perm snd Rltb _)) in Hx.
  apply candidates_range in Hx. unfold reaches. apply Rleb_true. lra.
Qed.

Lemma similar_threshold_nonpositive_witness :
  scored_lines (echoed (similar "kidney disease" (Some "terms") "en-GB" 0%R
                                (example_world kidney_corpus))) =
  map shown_as
      (sorted_reverse snd Rltb
         (candidates "kidney disease" (Some "terms") "en-GB"
                     (example_world kidney_corpus))).
Proof.
  apply (similar_threshold_nonpositive "kidney disease" (Some "terms") "en-GB"
           0%R (example_world kidney_corpus)).
  lra.
Defined.



(** ** The enumeration order of the directory *)

Lemma Rsum_perm (l l' : list R) : Permutation l l' -> Rsum l = Rsum l'.
Proof.
  induction 1 as [|x l l' _ IH|x y l|l l' l'' _ IH1 _ IH2]; cbn [Rsum fold_right].
  - reflexivity.
  - unfold Rsum in IH. now rewrite IH.
  - ring.
  - congruence.
Qed.

Lemma dot_map_map {T : Type} (f g : T -> R) (l : list T) :
  dot (map f l) (map g l) = Rsum (map (fun t => (f t * g t)%R) l).
Proof.
  induction l as [|t l IH]; [reflexivity|].
  cbn [map]. rewrite dot_cons, IH. reflexivity.
Qed.

Lemma idf_spec_perm (docs docs' : list string) (term : string) :
  Permutation docs docs' -> idf_spec docs term = idf_spec docs' term.
Proof.
  intros H. unfold idf_spec, document_frequency_spec.
  rewrite (Permutation_length H).
  now rewrite (Permutation_length (Permutation_filter_compat _ _ _ H)).
Qed.

Lemma vocabulary_perm (docs docs' : list string) :
  Permutation docs docs' -> Permutation (vocabulary docs) (vocabulary docs').
Proof.
  intros H. apply NoDup_Permutation; try apply NoDup_nodup.
  intros term. rewrite !vocabulary_In. split; intros [d [Hd Hterm]]; exists d.
  - split; [now apply (Permutation_in _ H) | exact Hterm].
  - split; [now apply (Permutation_in _ (Permutation_sym H)) | exact Hterm].
Qed.

Lemma dot_tfidf_perm (docs docs' : list string) (d1 d2 : string) :
  Permutation docs docs' ->
  dot (tfidf_spec docs d1) (tfidf_spec docs d2) =
  dot (tfidf_spec docs' d1) (tfidf_spec docs' d2).
Proof.
  intros H. unfold tfidf_spec. rewrite !dot_map_map.
  rewrite (Rsum_perm _ _ (Permutation_map _ (vocabulary_perm _ _ H))).
  f_equal. apply map_ext. intros term.
  now rewrite (idf_spec_perm _ _ term H).
Qed.

Lemma score_spec_perm (query : string) (texts texts' : list string)
    (doc : string) :
  Permutation texts texts' ->
  score_spec query texts doc = score_spec query texts' doc.
Proof.
  intros H. rewrite !score_spec_cosine. unfold cosine_spec, norm_l2.
  assert (Hdocs : Permutation (query :: texts) (query :: texts'))
    by now constructor.
  rewrite (dot_tfidf_perm _ _ query query Hdocs),
    (dot_tfidf_perm _ _ doc doc Hdocs), (dot_tfidf_perm _ _ query doc Hdocs).
  reflexivity.
Qed.

Lemma combine_map_snd {A B C : Type} (f : B -> C) (a : list A) (b : list B) :
  combine a (map f b) = map (fun x => (fst x, f (snd x))) (combine a b).
Proof.
  revert b. induction a as [|x a IH]; intros [|y b]; try reflexivity.
  cbn [map combine fst snd]. now rewrite IH.
Qed.

Lemma map_snd_combine {A B : Type} (a : list A) (b : list B) :
  List.length a = List.length b -> map snd (combine a b) = b.
Proof.
  revert b. induction a as [|x a IH]; intros [|y b] H; simpl in *;
    try congruence.
  f_equal. apply IH. congruence.
Qed.

Lemma nil_dec {T : Type} (l : list T) : {l = []} + {l <> []}.
Proof. destruct l; [now left | right; discriminate]. Qed.

Lemma candidates_no_texts (query : string) (directory : option string)
    (language : string) (w : world) :
  snd (corpus directory language w) = [] ->
  candidates query directory language w = [].
Proof.
  unfold candidates. destruct (corpus directory language w) as [fp texts].
  cbn [snd]. now intros ->.
Qed.

Lemma candidates_perm (query : string) (directory : option string)
    (language : string) (w1 w2 : world) :
  resolve_directory directory language w1 =
  resolve_directory directory language w2 ->
  Permutation (glob w1 (resolve_directory directory language w1))
              (glob w2 (resolve_directory directory language w2)) ->
  Permutation (snd (corpus directory language w1))
              (snd (corpus directory language w2)) /\
  Permutation (candidates query directory language w1)
              (candidates query directory language w2).
Proof.
  intros Hdir Hglob. rewrite <- Hdir in Hglob.
  set (search_dir := resolve_directory directory language w1) in *.
  assert (Hpairs : Permutation
            (combine (fst (corpus directory language w1))
                     (snd (corpus directory language w1)))
            (combine (fst (corpus directory language w2))
                     (snd (corpus directory language w2)))).
  { unfold corpus. rewrite <- Hdir. fold search_dir.
    rewrite !read_concept_files_corpus.
    now apply Permutation_flat_map. }
  assert (Hlen : forall w,
            List.length (fst (corpus directory language w)) =
            List.length (snd (corpus directory language w))).
  { intros w. unfold corpus. apply read_concept_files_length. }
  assert (Htexts : Permutation (snd (corpus directory language w1))
                               (snd (corpus directory language w2))).
  { rewrite <- (map_snd_combine _ _ (Hlen w1)),
      <- (map_snd_combine _ _ (Hlen w2)).
    now apply Permutation_map. }
  split; [exact Htexts|].
  set (texts1 := snd (corpus directory language w1)) in *.
  set (texts2 := snd (corpus directory language w2)) in *.
  destruct (nil_dec texts1) as [E1|Hne1].
  { assert (E2 : texts2 = [])
      by (rewrite E1 in Htexts; now apply Permutation_nil in Htexts).
    rewrite (candidates_no_texts query directory language w1 E1),
      (candidates_no_texts query directory language w2 E2).
    constructor. }
  assert (Hne2 : texts2 <> []).
  { intros H. rewrite H in Htexts. apply Permutation_sym in Htexts.
    now apply Permutation_nil in Htexts. }
  assert (Hvperm : Permutation (vocabulary (query :: texts1))
                               (vocabulary (query :: texts2)))
    by (apply vocabulary_perm; now constructor).
  destruct (nil_dec (vocabulary (query :: texts1))) as [Ev1|Hv1].
  - assert (Ev2 : vocabulary (query :: texts2) = [])
      by (rewrite Ev1 in Hvperm; now apply Permutation_nil in Hvperm).
    rewrite (candidates_unfold query directory language w1 Hne1),
      (candidates_unfold query directory language w2 Hne2).
    fold texts1 texts2. rewrite (fit_raises _ Ev1), (fit_raises _ Ev2).
    constructor.
  - assert (Hv2 : vocabulary (query :: texts2) <> []).
    { intros H. rewrite H in Hvperm. apply Permutation_sym in Hvperm.
      now apply Permutation_nil in Hvperm. }
    rewrite (candidates_scored query directory language w1 Hne1 Hv1),
      (candidates_scored query directory language w2 Hne2 Hv2).
    fold texts1 texts2. rewrite !combine_map_snd.
    rewrite (map_ext _ (fun x => (fst x, score_spec query texts2 (snd x))))
      by (intros x; now rewrite (score_spec_perm _ _ _ _ Htexts)).
    now apply Permutation_map.
Qed.

(** X19: the order in which the directory enumerates its entries
    changes neither the way [similar] ends nor the score lines it prints,
    only the order of the lines: two worlds whose listings of the
    directory are permutations of each other print the same lines, each
    as many times. *)
Theorem similar_enumeration_order (query : string)
    (directory : option string) (language : string) (threshold : R)
    (w1 w2 : world) :
  install_root w1 = install_root w2 ->
  let search_dir := resolve_directory directory language w1 in
  path_exists w1 search_dir = path_exists w2 search_dir ->
  Permutation (glob w1 search_dir) (glob w2 search_dir) ->
  Permutation
    (scored_lines (echoed (similar query directory language threshold w1)))
    (scored_lines (echoed (similar query directory language threshold w2))) /\
  ending_of (similar query directory language threshold w1) =
  ending_of (similar query directory language threshold w2).
Proof.
  intros Hroot search_dir Hex Hglob.
  assert (Hdir : resolve_directory directory language w1 =
                 resolve_directory directory language w2)
    by now apply resolve_directory_root.
  fold search_dir in Hdir.
  assert (Hglob' : Permutation
            (glob w1 (resolve_directory directory language w1))
            (glob w2 (resolve_directory directory language w2)))
    by (rewrite <- Hdir; exact Hglob).
  destruct (candidates_perm query directory language w1 w2 Hdir Hglob')
    as [Htexts Hcand].
  split.
  - rewrite !similar_scored_lines, !scored_lines_display.
    apply Permutation_map, Permutation_filter_compat.
    transitivity (candidates query directory language w1);
      [apply sorted_reverse_perm|].
    transitivity (candidates query directory language w2);
      [exact Hcand | apply Permutation_sym, sorted_reverse_perm].
  - assert (Hnil : snd (corpus directory language w1) = [] <->
                   snd (corpus directory language w2) = []).
    { split; intros H; rewrite H in Htexts;
        [|apply Permutation_sym in Htexts];
        now apply Permutation_nil in Htexts. }
    assert (Hvperm : Permutation
              (vocabulary (query :: snd (corpus directory language w1)))
              (vocabulary (query :: snd (corpus directory language w2))))
      by (apply vocabulary_perm; now constructor).
    assert (Hvnil :
              vocabulary (query :: snd (corpus directory language w1)) = [] <->
              vocabulary (query :: snd (corpus directory language w2)) = []).
    { split; intros H; rewrite H in Hvperm;
        [|apply Permutation_sym in Hvperm];
        now apply Permutation_nil in Hvperm. }
    destruct (similar_cases query directory language threshold w1)
      as [[Hex1 [Ht1 Hr1]]|[[Hex1 [Ht1 Hr1]]|[[Hex1 [Ht1 [Hv1 Hr1]]]|
          [Hex1 [Ht1 [Hv1 Hr1]]]]]];
      destruct (similar_cases query directory language threshold w2)
      as [[Hex2 [Ht2 Hr2]]|[[Hex2 [Ht2 Hr2]]|[[Hex2 [Ht2 [Hv2 Hr2]]]|
          [Hex2 [Ht2 [Hv2 Hr2]]]]]];
      rewrite Hr1, Hr2; cbn [ending_of]; try reflexivity;
      fold search_dir in Hex1; rewrite <- Hdir in Hex2;
      try (rewrite Hex in Hex1; congruence);
      try (apply Hnil in Ht1; contradiction);
      try (apply Hnil in Ht2; contradiction);
      try (apply Hvnil in Hv1; contradiction);
      try (apply Hvnil in Hv2; contradiction).
Qed.

Lemma similar_enumeration_order_witness :
  Permutation
    (scored_lines
       (echoed (similar "kidney disease" (Some "terms") "en-GB" 0.1%R
                        (example_world kidney_corpus))))
    (scored_lines
       (echoed (similar "kidney disease" (Some "terms") "en-GB" 0.1%R
                        (example_world (rev kidney_corpus))))) /\
  ending_of (similar "kidney disease" (Some "terms") "en-GB" 0.1%R
                     (example_world kidney_corpus)) =
  ending_of (similar "kidney disease" (Some "terms") "en-GB" 0.1%R
                     (example_world (rev kidney_corpus))).
Proof.
  apply (similar_enumeration_order "kidney disease" (Some "terms") "en-GB"
           0.1%R (example_world kidney_corpus)
           (example_world (rev kidney_corpus))).
  - reflexivity.
  - reflexivity.
  - apply Permutation_rev.
Defined.

(** ** File contents and their tokens *)

Lemma isspace_not_word (c : ascii) :
  isspace c = true -> lower_ascii c = c /\ is_word_char c = false.
Proof.
  destruct c as [[] [] [] [] [] [] [] []]; vm_compute; intros H;
    try discriminate H; split; reflexivity.
Qed.

Lemma emit_empty : emit EmptyString = [].
Proof. reflexivity. Qed.

Lemma findall_lstrip (s : string) :
  findall EmptyString (lower (lstrip s)) = findall EmptyString (lower s).
Proof.
  induction s as [|c s IH]; [reflexivity|].
  cbn [lstrip]. destruct (isspace c) eqn:E; [|reflexivity].
  rewrite IH. cbn [lower findall].
  destruct (isspace_not_word c E) as [-> ->]. reflexivity.
Qed.

Lemma findall_rstrip (s : string) (run : string) :
  findall run (lower (rstrip s)) = findall run (lower s).
Proof.
  revert run. induction s as [|c s IH]; intros run; [reflexivity|].
  cbn [rstrip]. destruct (rstrip s) as [|c' r'] eqn:Er.
  - cbn [lower] in IH. destruct (isspace c) eqn:E.
    + cbn [lower findall]. destruct (isspace_not_word c E) as [-> ->].
      rewrite <- IH. cbn [findall]. rewrite emit_empty. now rewrite app_nil_r.
    + cbn [lower findall]. destruct (is_word_char (lower_ascii c)).
      * apply IH.
      * f_equal. apply IH.
  - change (lower (String c (String c' r')))
      with (String (lower_ascii c) (lower (String c' r'))).
    cbn [lower findall] in *. destruct (is_word_char (lower_ascii c)).
    + apply IH.
    + f_equal. apply IH.
Qed.

Lemma analyze_strip (s : string) : analyze (strip s) = analyze s.
Proof.
  unfold analyze, strip. now rewrite findall_rstrip, findall_lstrip.
Qed.

Lemma transform_analyzed (v : TfidfVectorizer) (docs1 docs2 : list string) :
  map analyze docs1 = map analyze docs2 ->
  transform v docs1 = transform v docs2.
Proof.
  revert docs2. induction docs1 as [|d1 docs1 IH]; intros [|d2 docs2] H;
    try discriminate H; [reflexivity|].
  cbn [map] in H. injection H as Hd Hrest. unfold transform. cbn [map].
  rewrite (transform_row_analyzed v d1 d2 Hd). f_equal. now apply IH.
Qed.

Lemma read_concept_files_same_tokens (search_dir : Path)
    (entries1 entries2 : list dirent) :
  Forall2 same_tokens entries1 entries2 ->
  fst (fst (read_concept_files search_dir entries1)) =
    fst (fst (read_concept_files search_dir entries2)) /\
  map analyze (snd (fst (read_concept_files search_dir entries1))) =
    map analyze (snd (fst (read_concept_files search_dir entries2))) /\
  snd (read_concept_files search_dir entries1) =
    snd (read_concept_files search_dir entries2).
Proof.
  induction 1 as [|[nm1 n1] [nm2 n2] rest1 rest2 [Hname Hnode] _ IH];
    [repeat split|].
  cbn [fst snd] in Hname, Hnode. subst nm2. cbn [read_concept_files].
  destruct (read_concept_files search_dir rest1) as [[fp1 tx1] out1].
  destruct (read_concept_files search_dir rest2) as [[fp2 tx2] out2].
  cbn [fst snd] in IH. destruct IH as [-> [Htx ->]].
  destruct n1 as [[c1|e1]| |], n2 as [[c2|e2]| |];
    try discriminate Hnode; cbn [fst snd map];
    try (repeat split; congruence).
  rewrite !analyze_strip, Hnode, Htx. repeat split.
Qed.

(** X28: [similar] looks at the files it reads only through their
    tokens: when two directories list the same names in the same order,
    with the same nodes except that readable files may differ in letter
    case, punctuation and white space between the same tokens, the
    outputs are the same. *)
Theorem similar_content_tokens (query : string) (directory : option string)
    (language : string) (threshold : R) (w1 w2 : world) :
  install_root w1 = install_root w2 ->
  let search_dir := resolve_directory directory language w1 in
  path_exists w1 search_dir = path_exists w2 search_dir ->
  Forall2 same_tokens (glob w1 search_dir) (glob w2 search_dir) ->
  similar query directory language threshold w1 =
  similar query directory language threshold w2.
Proof.
  intros Hroot search_dir Hex Hsame.
  assert (Hdir : resolve_directory directory language w2 = search_dir)
    by (symmetry; now apply resolve_directory_root).
  unfold similar. rewrite Hdir. fold search_dir. rewrite <- Hex.
  destruct (negb (path_exists w1 search_dir)); [reflexivity|].
  destruct (read_concept_files_same_tokens search_dir _ _ Hsame)
    as [Hfp [Htx Hout]].
  destruct (read_concept_files search_dir (glob w1 search_dir))
    as [[fp1 tx1] out1].
  destruct (read_concept_files search_dir (glob w2 search_dir))
    as [[fp2 tx2] out2].
  cbn [fst snd] in Hfp, Htx, Hout. subst fp2 out2.
  destruct tx1 as [|t1 tx1], tx2 as [|t2 tx2]; try discriminate Htx;
    [reflexivity|].
  assert (Hdocs : map analyze (query :: t1 :: tx1) =
                  map analyze (query :: t2 :: tx2))
    by (cbn [map] in *; now rewrite Htx).
  rewrite (fit_analyzed _ _ Hdocs).
  destruct (fit (query :: t2 :: tx2)) as [e|vectorizer]; [reflexivity|].
  now rewrite (transform_analyzed vectorizer _ _ Hdocs).
Qed.

Lemma similar_content_tokens_witness :
  similar "kidney disease" (Some "terms") "en-GB" 0.1%R
          (example_world [("A", RegularFile (Text "Chronic KIDNEY disease."));
                          ("sub", Subdirectory)]) =
  similar "kidney disease" (Some "terms") "en-GB" 0.1%R
          (example_world [("A", RegularFile
                                  (Text "  chronic kidney   disease  "));
                          ("sub", Subdirectory)]).
Proof.
  apply (similar_content_tokens "kidney disease" (Some "terms") "en-GB" 0.1%R
           (example_world [("A", RegularFile (Text "Chronic KIDNEY disease."));
                           ("sub", Subdirectory)])
           (example_world [("A", RegularFile
                                   (Text "  chronic kidney   disease  "));
                           ("sub", Subdirectory)])).
  - reflexivity.
  - reflexivity.
  - repeat constructor.
Defined.
